(** * Man Utd fixtures app: the scraping core and the outcome model

  A shallow embedding of [streamlitunitedapp.py]: the name normaliser, the
  ClubElo resolver and rating fetcher, the line scanner of the fixtures
  page and the Elo-based outcome model, with the properties the
  specification states about them.

  Conventions.
  - A Python [str] is a [string]; a character is one code point below 256,
    so the character tables ([str.lower], [\s], [\d], [str.strip]) are the
    ones Python uses on that range.
  - A Python [int] is a [Z].
  - A Python [float] is a real number; every arithmetic operation rounds
    its exact result with a rounding function [rnd], and [10 ** x] is a
    function [pow10] (the platform's [pow]).  Both are parameters of the
    outcome model; exact arithmetic is the instance [rnd := id],
    [pow10 := Rpower 10].  The exponent range of binary64 is not part of
    the model.
  - Code that can raise returns a [result]; [try ... except Exception]
    is a match on it. *)

From Stdlib Require Import Bool Arith ZArith NArith QArith List Ascii String Lia.
From Stdlib Require Import Reals Lra Rpower.
Import ListNotations.

Close Scope Q_scope.
Close Scope R_scope.
Open Scope nat_scope.
Open Scope string_scope.

(* ================================================================== *)
(** * Characters and character classes *)

Module Chars.

Definition code (c : ascii) : N := N_of_ascii c.

(** A character class, as the [re] module compiles a bracket expression. *)
Definition cls := ascii -> bool.

Definition cchar (a : ascii) : cls := fun c => Ascii.eqb c a.
Definition crange (lo hi : ascii) : cls :=
  fun c => (code lo <=? code c)%N && (code c <=? code hi)%N.
Definition cor (p q : cls) : cls := fun c => p c || q c.
Definition cneg (p : cls) : cls := fun c => negb (p c).

(** [\d] on a [str] pattern: the decimal digits (below 256 only 0-9). *)
Definition digit : cls := crange "0" "9".

(** [\s] on a [str] pattern, which is also [str.isspace]: tab to carriage
    return, the four separators 0x1c-0x1f, space, NEL and the no-break
    space. *)
Definition space : cls :=
  fun c => let n := code c in
    ((9 <=? n) && (n <=? 13) || (28 <=? n) && (n <=? 32)
     || (n =? 133) || (n =? 160))%N.

(** A letter of the pattern under [re.I]: either case matches. *)
Definition upper : cls := crange "A" "Z".
Definition lower : cls := crange "a" "z".

(** [str.lower] on one character: A-Z, and the Latin-1 capitals
    0xC0-0xDE without the multiplication sign 0xD7. *)
Definition lower_char (c : ascii) : ascii :=
  let n := code c in
  if ((65 <=? n) && (n <=? 90)
      || (192 <=? n) && (n <=? 222) && negb (n =? 215))%N
  then ascii_of_N (n + 32) else c.

Definition cchar_i (a : ascii) : cls := fun c => Ascii.eqb (lower_char c) (lower_char a).

End Chars.
Import Chars.

(* ================================================================== *)
(** * The string methods the program calls *)

Module Str.

Fixpoint map (f : ascii -> ascii) (s : string) : string :=
  match s with
  | "" => ""
  | String c s' => String (f c) (map f s')
  end.

Fixpoint filter (p : ascii -> bool) (s : string) : string :=
  match s with
  | "" => ""
  | String c s' => if p c then String c (filter p s') else filter p s'
  end.

Fixpoint In (c : ascii) (s : string) : Prop :=
  match s with
  | "" => False
  | String a s' => a = c \/ In c s'
  end.

Fixpoint all (p : ascii -> bool) (s : string) : bool :=
  match s with
  | "" => true
  | String c s' => p c && all p s'
  end.

(** [s.lower()] *)
Definition lower (s : string) : string := map lower_char s.

(** [s.startswith(p)] *)
Fixpoint startswith (p s : string) : bool :=
  match p, s with
  | "", _ => true
  | String a p', String b s' => Ascii.eqb a b && startswith p' s'
  | String _ _, "" => false
  end.

(** [p in s] *)
Fixpoint contains (p s : string) : bool :=
  startswith p s ||
  match s with
  | "" => false
  | String _ s' => contains p s'
  end.

Fixpoint drop (n : nat) (s : string) : string :=
  match n, s with
  | O, _ => s
  | S n', String _ s' => drop n' s'
  | S _, "" => ""
  end.

Fixpoint take (n : nat) (s : string) : string :=
  match n, s with
  | O, _ => ""
  | S n', String c s' => String c (take n' s')
  | S _, "" => ""
  end.

(** [s.replace(old, "")] for a non-empty [old]: the occurrences of [old]
    are removed from left to right, without overlap.  [fuel] bounds the
    characters skipped after an occurrence. *)
Fixpoint remove_fuel (fuel : nat) (old s : string) : string :=
  match fuel with
  | O => s
  | S fuel' =>
      match s with
      | "" => ""
      | String c s' =>
          if startswith old s
          then remove_fuel fuel' old (drop (length old) s)
          else String c (remove_fuel fuel' old s')
      end
  end.

Definition remove (old s : string) : string :=
  match old with
  | "" => s
  | _ => remove_fuel (length s) old s
  end.

Fixpoint lstrip (s : string) : string :=
  match s with
  | "" => ""
  | String c s' => if space c then lstrip s' else s
  end.

Fixpoint rstrip (s : string) : string :=
  match s with
  | "" => ""
  | String c s' =>
      match rstrip s' with
      | "" => if space c then "" else String c ""
      | t => String c t
      end
  end.

(** [s.strip()] *)
Definition strip (s : string) : string := rstrip (lstrip s).

(** The line boundaries of [str.splitlines] below 256: LF, VT, FF, CR, the
    separators 0x1c-0x1e and NEL. *)
Definition linebreak : cls :=
  fun c => let n := code c in
    ((10 <=? n) && (n <=? 13) || (28 <=? n) && (n <=? 30) || (n =? 133))%N.

Definition rev_string (s : string) : string :=
  string_of_list_ascii (rev (list_ascii_of_string s)).

(** [s.splitlines()]: [cur] holds the current line reversed; CR LF is one
    boundary; a last line is produced only when it is not empty. *)
Fixpoint splitlines_from (cur : string) (s : string) : list string :=
  match s with
  | "" => match cur with "" => [] | _ => [rev_string cur] end
  | String c s' =>
      if linebreak c then
        rev_string cur ::
          match s' with
          | String d s'' =>
              if Ascii.eqb c "013" && Ascii.eqb d "010"
              then splitlines_from "" s''
              else splitlines_from "" s'
          | "" => []
          end
      else splitlines_from (String c cur) s'
  end.

Definition splitlines (s : string) : list string := splitlines_from "" s.

End Str.

(* ================================================================== *)
(** * [normalize] *)

(** The bracket expression of [normalize], [[^a-z1-10]]: inside the
  brackets stand the range [a-z], the range [1-1] and the character [0],
  and the caret complements their union. *)
Definition normalize_class : cls :=
  cneg (cor (crange "a" "z") (cor (crange "1" "1") (cchar "0"))).

(** [re.sub(cls, '', s)] for a one-character class: every character of the
  class is deleted. *)
Definition re_sub_class (c : cls) (s : string) : string :=
  Str.filter (cneg c) s.

(** [def normalize(name): return re.sub(r'[^a-z1-10]', '', name.lower())] *)
Definition normalize (name : string) : string :=
  re_sub_class normalize_class (Str.lower name).

(** What the class leaves: a lowercase letter, [0] or [1]. *)
Definition kept (c : ascii) : bool :=
  lower c || Ascii.eqb c "0" || Ascii.eqb c "1".

Definition digit_2_to_9 : cls := crange "2" "9".

(** ASCII punctuation: the printable characters that are neither letters,
  digits nor the space. *)
Definition punct : cls :=
  fun c => crange "!" "/" c || crange ":" "@" c || crange "[" "`" c || crange "{" "~" c.

(* ================================================================== *)
(** * The fragment of [re] the program uses

    The patterns of the program are built from character classes, greedy
    repetitions of a class, alternation, one capturing group and [$].
    [run] is the backtracking matcher: it tries the alternatives in the
    order [re] does (a greedy repetition first takes all it can, the left
    branch of [|] comes first) and hands the rest of the string and the
    text of group 1 to its continuation. *)

Module Re.

Inductive regex : Type :=
| Eps
| Chr (c : cls)
| Seq (r1 r2 : regex)
| Alt (r1 r2 : regex)
| Rep (c : cls) (lo : nat) (hi : option nat)
| Grp (r : regex)
| Eol.

Fixpoint cat (rs : list regex) : regex :=
  match rs with
  | [] => Eps
  | [r] => r
  | r :: rs' => Seq r (cat rs')
  end.

(** A literal word of the pattern. *)
Fixpoint lit (w : string) : regex :=
  match w with
  | "" => Eps
  | String c "" => Chr (cchar c)
  | String c w' => Seq (Chr (cchar c)) (lit w')
  end.

(** A literal word under [re.I]. *)
Fixpoint lit_i (w : string) : regex :=
  match w with
  | "" => Eps
  | String c "" => Chr (cchar_i c)
  | String c w' => Seq (Chr (cchar_i c)) (lit_i w')
  end.

(** What was consumed between [s] and its suffix [s']. *)
Definition consumed (s s' : string) : string :=
  Str.take (length s - length s') s.

(** [c{lo,hi}], greedy: one more character first, and only when that fails
    the repetition stops here (allowed once [lo] has been reached). *)
Fixpoint rep_greedy {A : Type} (c : cls) (lo : nat) (hi : option nat)
    (s : string) (k : string -> option A) : option A :=
  let stop := match lo with O => k s | S _ => None end in
  match hi with
  | Some O => stop
  | _ =>
      match s with
      | String a s' =>
          if c a then
            match rep_greedy c (Nat.pred lo) (option_map Nat.pred hi) s' k with
            | Some x => Some x
            | None => stop
            end
          else stop
      | "" => stop
      end
  end.

Fixpoint run {A : Type} (r : regex) (s : string) (g : option string)
    (k : string -> option string -> option A) : option A :=
  match r with
  | Eps => k s g
  | Chr c =>
      match s with
      | String a s' => if c a then k s' g else None
      | "" => None
      end
  | Seq r1 r2 => run r1 s g (fun s' g' => run r2 s' g' k)
  | Alt r1 r2 =>
      match run r1 s g k with
      | Some x => Some x
      | None => run r2 s g k
      end
  | Rep c lo hi => rep_greedy c lo hi s (fun s' => k s' g)
  | Grp r1 => run r1 s g (fun s' _ => k s' (Some (consumed s s')))
  | Eol =>
      match s with
      | "" => k s g
      | String c "" => if Ascii.eqb c "010" then k s g else None
      | _ => None
      end
  end.

(** A match object: [m.group(0)] and [m.group(1)]. *)
Record match_obj : Type := { group0 : string; group1 : option string }.

Definition match_at (r : regex) (s : string) : option match_obj :=
  run r s None (fun s' g => Some {| group0 := consumed s s'; group1 := g |}).

(** [re.match(r, s)] as a truth value: a match at the start of [s]. *)
Definition matches (r : regex) (s : string) : bool :=
  match match_at r s with Some _ => true | None => false end.

(** [re.search(r, s)]: the match at the leftmost position that has one. *)
Fixpoint search (r : regex) (s : string) : option match_obj :=
  match match_at r s with
  | Some m => Some m
  | None =>
      match s with
      | String _ s' => search r s'
      | "" => None
      end
  end.

End Re.
Import Re.

(* ================================================================== *)
(** * Exceptions *)

(** An exception raised by a collaborator (requests, BeautifulSoup, the
    cache): an instance of a subclass of [Exception]. *)
Inductive exn : Type := Exception (what : string).

Inductive result (A : Type) : Type :=
| Ok (a : A)
| Raise (e : exn).
Arguments Ok {A} a.
Arguments Raise {A} e.

Definition bind {A B : Type} (x : result A) (f : A -> result B) : result B :=
  match x with
  | Ok a => f a
  | Raise e => Raise e
  end.

Notation "x <- c1 ;; c2" := (bind c1 (fun x => c2))
  (at level 61, c1 at next level, right associativity).

(* ================================================================== *)
(** * The ClubElo index, the resolver and the rating fetcher *)

(** What the program reaches outside itself: the HTTP fetch, the two
    BeautifulSoup readings of a page and the similarity ratio of
    [difflib.SequenceMatcher(None, a, b).ratio()], a rational [2M/T]. *)
Record World : Type := {
  fetch_page_text : string -> result string;
  soup_anchors : string -> result (list (string * string));
  soup_get_text : string -> string -> result string;
  seq_ratio : string -> string -> Q
}.

Definition CLUBELO_ALL_URL : string := "https://clubelo.com/All".
Definition CLUBELO_BASE : string := "https://clubelo.com".
Definition ESPN_FIXTURES_URL : string :=
  "https://www.espn.com/soccer/team/fixtures/_/id/360/manchester-united".

(** An entry of the index: (display_name, href, normalized_name). *)
Definition entry : Type := string * string * string.

Definition mem_string (x : string) (l : list string) : bool :=
  existsb (String.eqb x) l.

(** The second loop of [build_clubelo_index]: first occurrence of each
    normalized name. *)
Fixpoint remove_duplicates (items : list entry) (seen : list string) : list entry :=
  match items with
  | [] => []
  | (t, h, n) :: rest =>
      if mem_string n seen then remove_duplicates rest seen
      else (t, h, n) :: remove_duplicates rest (n :: seen)
  end.

(** The filter of the first loop: [a.get_text(strip=True)] and [a['href']]
    are the two components of an anchor. *)
Definition club_link (a : string * string) : bool :=
  let '(text, href) := a in
  negb (String.eqb text "")
  && (Str.startswith "/" href && (2 <? length text)%nat && (length href <? 60)%nat).

Definition build_clubelo_index (w : World) : result (list entry) :=
  txt <- fetch_page_text w CLUBELO_ALL_URL ;;
  anchors <- soup_anchors w txt ;;
  let items := List.map (fun a => (fst a, snd a, normalize (fst a)))
                        (List.filter club_link anchors) in
  Ok (remove_duplicates items []).

Definition Qltb (x y : Q) : bool := negb (Qle_bool y x).

(** [best] of [find_clubelo_href]: (href, display, ratio). *)
Definition best_t : Type := option string * option string * Q.

(** The loop of [find_clubelo_href] over the index, and the acceptance
    test after it. *)
Fixpoint scan_index (ratio : string -> string -> Q) (target : string)
    (index : list entry) (best : best_t) : option string * option string :=
  match index with
  | [] =>
      if Qle_bool (65 # 100) (snd best) then fst best else (None, None)
  | (display, href, norm) :: rest =>
      if String.eqb norm target then (Some href, Some display)
      else if Str.contains target norm || Str.contains norm target
      then (Some href, Some display)
      else
        let r := ratio norm target in
        if Qltb (snd best) r
        then scan_index ratio target rest (Some href, Some display, r)
        else scan_index ratio target rest best
  end.

(** [find_clubelo_href] on a given index. *)
Definition find_in_index (ratio : string -> string -> Q) (index : list entry)
    (team_name : string) : option string * option string :=
  scan_index ratio (normalize team_name) index (None, None, 0%Q).

Definition find_clubelo_href (w : World) (team_name : string)
    : result (option string * option string) :=
  index <- build_clubelo_index w ;;
  Ok (find_in_index (seq_ratio w) index team_name).

(** [Elo[:\s]*([1-10]{3,4})]: in the group's brackets stand the range
    [1-1] and the character [0]. *)
Definition elo_digit : cls := cor (crange "1" "1") (cchar "0").

Definition elo_re : regex :=
  cat [lit "Elo"; Rep (cor (cchar ":") space) 0 None; Grp (Rep elo_digit 3 (Some 4))].

(** [int(s)] for a string of decimal digits; any other string is a
    [ValueError] here (the pattern captures digits only). *)
Fixpoint int_digits (acc : Z) (s : string) : result Z :=
  match s with
  | "" => Ok acc
  | String c s' =>
      if digit c
      then int_digits (10 * acc + Z.of_N (code c - code "0")) s'
      else Raise (Exception "ValueError")
  end.

Definition py_int (s : string) : result Z :=
  match s with
  | "" => Raise (Exception "ValueError")
  | _ => int_digits 0 s
  end.

(** [int(m.group(1))] *)
Definition int_group1 (m : match_obj) : result Z :=
  match group1 m with
  | Some s => py_int s
  | None => Raise (Exception "TypeError")
  end.

(** The body of the [try] of [get_elo_for_team]: [Some v] when a [return v]
    inside it is reached, [None] when control falls out of it. *)
Definition get_elo_try (w : World) (team_name : string) (default : Z)
    : result (option Z) :=
  found <- find_clubelo_href w team_name ;;
  match fst found with
  | None | Some "" => Ok (Some default)
  | Some href =>
      let url := CLUBELO_BASE ++ href in
      html <- fetch_page_text w url ;;
      match search elo_re html with
      | Some m => v <- int_group1 m ;; Ok (Some v)
      | None =>
          text <- soup_get_text w html " " ;;
          match search elo_re text with
          | Some m2 => v <- int_group1 m2 ;; Ok (Some v)
          | None => Ok None
          end
      end
  end.

(** [get_elo_for_team]: [except Exception: pass], then [return default]. *)
Definition get_elo_for_team (w : World) (team_name : string) (default : Z)
    : result Z :=
  match get_elo_try w team_name default with
  | Ok (Some v) => Ok v
  | Ok None => Ok default
  | Raise _ => Ok default
  end.

(** The ratings of one table row (the [try] in the loop over the
    fixtures): the cached rating of the team and the two ratings handed to
    the outcome model. *)
Definition row_ratings (w : World) (man_elo_cached : option Z) (opponent : string)
    : Z * Z :=
  let fetched :=
    man <- match man_elo_cached with
           | None => get_elo_for_team w "Man United" 1700
           | Some v => Ok v
           end ;;
    opp <- get_elo_for_team w opponent 1500 ;;
    Ok (man, opp) in
  match fetched with
  | Ok p => p
  | Raise _ => (1700, 1500)%Z
  end.

(* ================================================================== *)
(** * The fixture parser *)

Module Parser.

Record FixtureRecord : Type := {
  date_text : string;
  time_text : string;
  competition : string;
  opponent : string;
  home : bool
}.

Definition letter : cls := cor (crange "A" "Z") (crange "a" "z").

(** [^[A-Za-z]{3,9},\s+[A-Za-z]{3,9}\s+\d{1,2}$], used with [match]: the
    leading [^] holds at the start of the string, where [match] tries. *)
Definition date_re : regex :=
  cat [Rep letter 3 (Some 9); Chr (cchar ","); Rep space 1 None;
       Rep letter 3 (Some 9); Rep space 1 None; Rep digit 1 (Some 2); Eol].

(** [\d{1,2}:\d{2}\s*(AM|PM)] compiled with [re.I]. *)
Definition time_re : regex :=
  cat [Rep digit 1 (Some 2); Chr (cchar ":"); Rep digit 2 (Some 2);
       Rep space 0 None; Grp (Alt (lit_i "AM") (lit_i "PM"))].

(** [lines = [ln.strip() for ln in text.splitlines() if ln.strip()]] *)
Definition page_lines (text : string) : list string :=
  List.map Str.strip
    (List.filter (fun ln => negb (String.eqb (Str.strip ln) "")) (Str.splitlines text)).

(** [tail]: the lines [j], [j+1], [j+2] that exist. *)
Definition tail_lines (lines : list string) (j : nat) : list string :=
  flat_map (fun k => match nth_error lines (j + k) with
                     | Some l => [l]
                     | None => []
                     end) [0; 1; 2].

(** The loop over [tail]: (time_text, comp_text) of the first line with a
    time in it, two empty strings when there is none. *)
Fixpoint first_time (tail : list string) : string * string :=
  match tail with
  | [] => ("", "")
  | t :: rest =>
      match search time_re t with
      | Some m =>
          let time_text := group0 m in
          (time_text, Str.strip (Str.remove time_text t))
      | None => first_time rest
      end
  end.

Definition mentions_united (team : string) : bool :=
  Str.contains "Manchester United" team
  || Str.contains "Man Utd" team
  || Str.contains "ManUnited" team.

Definition is_versus (ln : string) : bool :=
  String.eqb ln "v" || String.eqb ln "vs" || String.eqb ln "V".

(** The state of the scan: [current_date] and [fixtures]. *)
Definition scan_state : Type := option string * list FixtureRecord.

(** One turn of the [while] loop, at index [i]. *)
Definition scan_step (lines : list string) (st : scan_state) (i : nat) : scan_state :=
  let '(current_date, fixtures) := st in
  match nth_error lines i with
  | None => st
  | Some ln =>
      if matches date_re ln then (Some ln, fixtures)
      else if is_versus ln then
        match (if ((1 <=? i) && (i + 1 <? List.length lines))%nat
               then nth_error lines (i - 1) else None),
              nth_error lines (i + 1) with
        | Some team_a, Some team_b =>
            let '(time_text, comp_text) := first_time (tail_lines lines (i + 2)) in
            let date := match current_date with Some d => d | None => "" end in
            if mentions_united team_a then
              (current_date,
               (fixtures ++ [{| date_text := date; time_text := time_text;
                                competition := comp_text; opponent := team_b;
                                home := true |}])%list)
            else if mentions_united team_b then
              (current_date,
               (fixtures ++ [{| date_text := date; time_text := time_text;
                                competition := comp_text; opponent := team_a;
                                home := false |}])%list)
            else st
        | _, _ => st
        end
      else st
  end.

(** The [while] loop: [i] starts at 1 and goes up by one in every turn,
    so it runs over the indices 1 .. len(lines) - 1. *)
Definition scan_lines (lines : list string) : list FixtureRecord :=
  snd (fold_left (scan_step lines) (seq 1 (List.length lines - 1)) (None, [])).

(** The key of the last loop. *)
Definition key : Type := string * string * bool.

Definition key_of (f : FixtureRecord) : key := (date_text f, opponent f, home f).

Definition key_eqb (a b : key) : bool :=
  let '(d1, o1, h1) := a in
  let '(d2, o2, h2) := b in
  String.eqb d1 d2 && String.eqb o1 o2 && Bool.eqb h1 h2.

Definition mem_key (k : key) (seen : list key) : bool := existsb (key_eqb k) seen.

(** The last loop of [parse_espn_fixtures_page]: [seen] and [out] as the
    loop holds them on entry to a turn. *)
Fixpoint unique_limit (limit : Z) (fixtures : list FixtureRecord)
    (seen : list key) (out : list FixtureRecord) : list FixtureRecord :=
  match fixtures with
  | [] => out
  | f :: rest =>
      let k := key_of f in
      let seen' := if mem_key k seen then seen else k :: seen in
      let out' := if mem_key k seen then out else (out ++ [f])%list in
      if (limit <=? Z.of_nat (List.length out'))%Z then out'
      else unique_limit limit rest seen' out'
  end.

(** The function from the lines on. *)
Definition parse_lines (lines : list string) (limit : Z) : list FixtureRecord :=
  unique_limit limit (scan_lines lines) [] [].

(** [parse_espn_fixtures_page(limit)] *)
Definition parse_espn_fixtures_page (w : World) (limit : Z)
    : result (list FixtureRecord) :=
  html <- fetch_page_text w ESPN_FIXTURES_URL ;;
  text <- soup_get_text w html "010" ;;
  Ok (parse_lines (page_lines text) limit).

End Parser.
Import Parser.

(* ================================================================== *)
(** * The outcome model *)

Module Outcome.

Local Open Scope R_scope.

Section Arith.

(** Rounding to the nearest float, and [10.0 ** x]. *)
Variable rnd : R -> R.
Variable pow10 : R -> R.

(** A literal; [1.0], [400.0] and [2000.0] are floats and stand for
    themselves. *)
Definition flit (x : R) : R := rnd x.
(** An [int] operand of a float operation. *)
Definition of_int (n : Z) : R := rnd (IZR n).
Definition fadd (x y : R) : R := rnd (x + y).
Definition fsub (x y : R) : R := rnd (x - y).
Definition fmul (x y : R) : R := rnd (x * y).
Definition fdiv (x y : R) : R := rnd (x / y).

(** [return 1.0 / (1.0 + 10 ** ((b - a) / 400.0))] *)
Definition elo_expected (a b : Z) : R :=
  fdiv 1 (fadd 1 (pow10 (fdiv (of_int (b - a)) 400))).

Definition HOME_ADV : Z := 100.

(** [gap], [draw_prob] of [probability_from_elos] from the adjusted ratings. *)
Definition draw_of (ra rb : Z) : R :=
  let p_draw_base := flit (23 / 100) in
  let gap := Z.abs (ra - rb) in
  Rmax (flit (1 / 10)) (fsub p_draw_base (fdiv (of_int gap) 2000)).

Definition probability_from_elos (elo_a elo_b : Z) (man_is_home : bool) : R * R * R :=
  let ra := if man_is_home then (elo_a + HOME_ADV)%Z else elo_a in
  let rb := if man_is_home then elo_b else (elo_b + HOME_ADV)%Z in
  let draw_prob := draw_of ra rb in
  let p_expected := elo_expected ra rb in
  let p_win := fmul (fsub 1 draw_prob) p_expected in
  let p_loss := fmul (fsub 1 draw_prob) (fsub 1 p_expected) in
  let rem := fsub 1 (fadd (fadd p_win draw_prob) p_loss) in
  let p_loss := if Rlt_dec (flit (1 / 10 ^ 6)) (Rabs rem)
                then fadd p_loss rem else p_loss in
  (p_win, draw_prob, p_loss).

End Arith.

Definition p_win (t : R * R * R) : R := fst (fst t).
Definition p_draw (t : R * R * R) : R := snd (fst t).
Definition p_loss (t : R * R * R) : R := snd t.

(** Exact arithmetic: nothing is rounded and [10 ** x] is the real power. *)
Definition exact (x : R) : R := x.
Definition exact_pow10 (x : R) : R := Rpower 10 x.

End Outcome.

(* ================================================================== *)
(** * Notions used by the statements *)

(** Every character, for properties of characters decided by evaluation. *)
Definition all_ascii : list ascii := List.map ascii_of_nat (seq 0 256).

(** [s] with the leading characters of [[:\s]] dropped. *)
Fixpoint skip_sep (s : string) : string :=
  match s with
  | "" => ""
  | String c s' => if cor (cchar ":") space c then skip_sep s' else s
  end.

(** The first three characters after the label [Elo] and the separators
    that follow it, for a string [t] that starts with the label. *)
Definition figure_after (t : string) : string :=
  Str.take 3 (skip_sep (Str.drop 3 t)).

(** [t] starts with the label, and a figure of three characters from
    [{0, 1}] follows it. *)
Definition binary_figure_at (t : string) : bool :=
  Str.startswith "Elo" t
  && (length (figure_after t) =? 3)%nat
  && Str.all elo_digit (figure_after t).

(** Some suffix of the page has a binary figure on a label. *)
Fixpoint has_binary_figure (page : string) : bool :=
  binary_figure_at page ||
  match page with
  | "" => false
  | String _ page' => has_binary_figure page'
  end.

(** The decimal digits of a number below 10000 are all 0 or 1. *)
Definition digits01 (v : Z) : bool :=
  ((0 <=? v) && (v <? 10000))%Z
  && forallb (fun d => (d =? 0) || (d =? 1))%Z
       [v mod 10; (v / 10) mod 10; (v / 100) mod 10; (v / 1000) mod 10]%Z.

(** The records of [fixtures] whose key is new, in order: the first
    occurrence of every key not in [seen]. *)
Fixpoint first_occurrences (fixtures : list FixtureRecord) (seen : list key)
    : list FixtureRecord :=
  match fixtures with
  | [] => []
  | f :: rest =>
      if mem_key (key_of f) seen then first_occurrences rest seen
      else f :: first_occurrences rest (key_of f :: seen)
  end.

(** The entry [e] is neither an exact nor a substring hit for [target]. *)
Definition no_hit (target : string) (e : entry) : Prop :=
  let norm := snd e in
  norm <> target
  /\ Str.contains target norm = false
  /\ Str.contains norm target = false.

(** The ratio [find_clubelo_href] computes for an entry. *)
Definition ratio_of (ratio : string -> string -> Q) (target : string) (e : entry) : Q :=
  ratio (snd e) target.

(** A kept character is none of: a digit 2-9, an uppercase letter, a
    whitespace character, a punctuation mark. *)
Definition removed_kind (c : ascii) : bool :=
  digit_2_to_9 c || upper c || space c || punct c.

(** The text group 1 captures after the label of [t]: four characters when
    a fourth binary digit follows the first three, else three. *)
Definition elo_group (t : string) : string :=
  let r := skip_sep (Str.drop 3 t) in
  match Str.drop 3 r with
  | String d _ => if elo_digit d then Str.take 4 r else Str.take 3 r
  | "" => Str.take 3 r
  end.

(** The captured text: three or four characters, each 0 or 1. *)
Definition binary_run (g : string) : Prop :=
  (length g = 3 \/ length g = 4) /\ Str.all elo_digit g = true.

(** The resolver gave the link [href]. *)
Definition resolved (w : World) (team href : string) : Prop :=
  href <> "" /\ exists d, find_clubelo_href w team = Ok (Some href, d).

(** Resolution fails: the resolver raises or gives no link. *)
Definition resolution_fails (w : World) (team : string) : Prop :=
  match find_clubelo_href w team with
  | Ok (Some (String _ _), _) => False
  | _ => True
  end.

(** The fetch of the club's page fails. *)
Definition fetch_fails (w : World) (team : string) : Prop :=
  exists href e,
    resolved w team href /\ fetch_page_text w (CLUBELO_BASE ++ href) = Raise e.

(** Neither the markup nor the text of the club's page matches the pattern
    (a failure to extract the text counts). *)
Definition no_rating_on_page (w : World) (team : string) : Prop :=
  exists href html,
    resolved w team href
    /\ fetch_page_text w (CLUBELO_BASE ++ href) = Ok html
    /\ search elo_re html = None
    /\ match soup_get_text w html " " with
       | Ok text => search elo_re text = None
       | Raise _ => True
       end.

(** [page] is the markup of the club's page or the text extracted from it. *)
Definition page_of (w : World) (team page : string) : Prop :=
  exists href html,
    resolved w team href
    /\ fetch_page_text w (CLUBELO_BASE ++ href) = Ok html
    /\ (page = html \/ soup_get_text w html " " = Ok page).

(** On every label of the page, one of the first three characters of the
    figure is a digit from 2 to 9. *)
Fixpoint figures_have_2_to_9 (page : string) : bool :=
  (negb (Str.startswith "Elo" page)
   || negb (Str.all (cneg digit_2_to_9) (figure_after page)))
  && match page with
     | "" => true
     | String _ page' => figures_have_2_to_9 page'
     end.

(** A world with one club, Leeds, whose page is [page]; the text of a page
    is the page. *)
Definition club_world (page : string) : World := {|
  fetch_page_text := fun url =>
    Ok (if String.eqb url CLUBELO_ALL_URL then "" else page);
  soup_anchors := fun _ => Ok [("Leeds", "/Leeds")];
  soup_get_text := fun html _ => Ok html;
  seq_ratio := fun _ _ => 0%Q
|}.

(** Two indexes for the resolver: every ratio 0.60; and a tie at 0.70
    between the second and the third entry. *)
Definition three_clubs : list entry :=
  [("Leeds United", "/LeedsUnited", "leedsunited");
   ("Arsenal", "/Arsenal", "arsenal");
   ("Everton", "/Everton", "everton")].

Definition ratio_060 (a b : string) : Q := 6 # 10.

Definition ratio_tie (a b : string) : Q :=
  if String.eqb a "leedsunited" then 1 # 2 else 7 # 10.

(** The five lines of the specification's example. *)
Definition leeds_lines : list string :=
  ["Sun, Aug 24"; "Manchester United"; "v"; "Leeds United";
   "11:30 AM English Premier League"].

Definition leeds_fixture (date : string) : FixtureRecord :=
  {| date_text := date; time_text := "11:30 AM";
     competition := "English Premier League";
     opponent := "Leeds United"; home := true |}.

(** [e] is an exact or a substring hit for [target], as a truth value. *)
Definition hit (target : string) (e : entry) : bool :=
  let norm := snd e in
  String.eqb norm target || Str.contains target norm || Str.contains norm target.

(** The record [f] comes from the versus line at index [i]: the lines
    around it are the two teams, the side that mentions the team decides
    venue and opponent (team A first), time and competition come from the
    lines after team B, and the date is empty or a date line between the
    second line and line [i]. *)
Definition fixture_at (lines : list string) (i : nat) (f : FixtureRecord) : Prop :=
  exists ln team_a team_b,
    (1 <= i)%nat
    /\ nth_error lines i = Some ln /\ is_versus ln = true
    /\ nth_error lines (i - 1) = Some team_a
    /\ nth_error lines (i + 1) = Some team_b
    /\ (if mentions_united team_a
        then home f = true /\ opponent f = team_b
        else mentions_united team_b = true /\ home f = false /\ opponent f = team_a)
    /\ (time_text f, competition f) = first_time (tail_lines lines (i + 2))
    /\ (date_text f = ""
        \/ exists j, (1 <= j < i)%nat
                     /\ nth_error lines j = Some (date_text f)
                     /\ matches date_re (date_text f) = true).

(** What the scan knows before the turn at index [bound]: the current date
    is a date line it has passed, and each record comes from a versus line
    it has passed. *)
Definition scanned (lines : list string) (bound : nat) (st : scan_state) : Prop :=
  match fst st with
  | None => True
  | Some d => exists j, (1 <= j < bound)%nat /\ nth_error lines j = Some d
                        /\ matches date_re d = true
  end
  /\ forall f, List.In f (snd st) ->
       exists i, (i < bound)%nat /\ fixture_at lines i f.

(** Characters [normalize] deletes in any position: the digits 2-9,
    whitespace and ASCII punctuation. *)
Definition dropped (c : ascii) : bool :=
  digit_2_to_9 c || space c || punct c.

(* ================================================================== *)
(** * Notions used by the statements about the outcome model *)

Import Outcome.
Open Scope R_scope.

(** The expected score and the draw probability as real functions of the
    gap [x] between the adjusted ratings: what the floats approximate. *)
Definition Ex (x : Z) : R := 1 / (1 + Rpower 10 (IZR (- x) / 400)).
Definition Dx (x : Z) : R := Rmax (1 / 10) (23 / 100 - IZR (Z.abs x) / 2000).

(** The power under the expected score of gap [x]. *)
Definition Gx (x : Z) : R := Rpower 10 (IZR (- x) / 400).

(** The win probability of gap [x] in exact arithmetic. *)
Definition Wx (x : Z) : R := (1 - Dx x) * Ex x.

(** The loss probability of gap [x] in exact arithmetic. *)
Definition Lx (x : Z) : R := (1 - Dx x) * (1 - Ex x).

(** The unit roundoff of binary64, 2^-53. *)
Definition unit_roundoff : R := / 9007199254740992.

(** What the proofs use of rounding to nearest: it is monotone, leaves 0
    and 1 alone, and moves [x] by at most the unit roundoff times
    [max 1 |x|]. *)
Definition rounds_to_nearest (rnd : R -> R) : Prop :=
  (forall x y, x <= y -> rnd x <= rnd y)
  /\ rnd 0 = 0
  /\ rnd 1 = 1
  /\ (forall x, Rabs (rnd x - x) <= unit_roundoff * Rmax 1 (Rabs x)).

(** What the proofs use of [10.0 ** x]: it is not negative, it is monotone,
    and between -2 and 2 it is within 1e-9 of the power. *)
Definition computes_pow10 (pow10 : R -> R) : Prop :=
  (forall x, 0 <= pow10 x)
  /\ (forall x y, x <= y -> pow10 x <= pow10 y)
  /\ (forall x, -2 <= x <= 2 -> Rabs (pow10 x - Rpower 10 x) <= 1 / 10 ^ 9).

(** The two float functions of the gap [x = ra - rb] of the adjusted
    ratings that [probability_from_elos] multiplies. *)
Definition expected_gap (rnd pow10 : R -> R) (x : Z) : R :=
  fdiv rnd 1 (fadd rnd 1 (pow10 (fdiv rnd (of_int rnd (- x)) 400))).

Definition draw_gap (rnd : R -> R) (x : Z) : R :=
  Rmax (flit rnd (1 / 10))
       (fsub rnd (flit rnd (23 / 100)) (fdiv rnd (of_int rnd (Z.abs x)) 2000)).

Definition win_gap (rnd pow10 : R -> R) (x : Z) : R :=
  fmul rnd (fsub rnd 1 (draw_gap rnd x)) (expected_gap rnd pow10 x).

Definition loss_gap (rnd pow10 : R -> R) (x : Z) : R :=
  fmul rnd (fsub rnd 1 (draw_gap rnd x)) (fsub rnd 1 (expected_gap rnd pow10 x)).

(** The gap of the adjusted ratings. *)
Definition adjusted_gap (elo_a elo_b : Z) (man_is_home : bool) : Z :=
  if man_is_home then elo_a + HOME_ADV - elo_b else elo_a - (elo_b + HOME_ADV).

Close Scope R_scope.

(* ================================================================== *)
(** * Properties of [normalize] *)

Lemma ascii_in_all : forall c, List.In c all_ascii.
Proof.
  intro c. unfold all_ascii.
  rewrite <- (ascii_nat_embedding c).
  apply in_map, in_seq. pose proof (nat_ascii_bounded c). lia.
Qed.

(** A property of characters that evaluates to [true] on all 256 of them. *)
Lemma by_cases_on_ascii (P : ascii -> bool) :
  forallb P all_ascii = true -> forall c, P c = true.
Proof.
  intros H c. rewrite forallb_forall in H. apply H, ascii_in_all.
Qed.

Lemma normalize_class_kept : forall c, cneg normalize_class c = kept c.
Proof.
  intro c.
  pose proof (by_cases_on_ascii (fun c => Bool.eqb (cneg normalize_class c) (kept c))
                (eq_refl true) c) as H.
  apply Bool.eqb_prop in H. exact H.
Qed.

Lemma normalize_filter : forall s, normalize s = Str.filter kept (Str.lower s).
Proof.
  intro s. unfold normalize, re_sub_class.
  induction (Str.lower s) as [|c t IH]; simpl; [reflexivity|].
  rewrite normalize_class_kept, IH. reflexivity.
Qed.

Lemma lower_char_kept : forall c, kept c = true -> lower_char c = c.
Proof.
  intros c H.
  pose proof (by_cases_on_ascii
                (fun c => implb (kept c) (Ascii.eqb (lower_char c) c))
                (eq_refl true) c) as E.
  cbv beta in E. rewrite H in E. simpl in E. apply Ascii.eqb_eq. exact E.
Qed.

Lemma kept_not_removed_kind : forall c, kept c = true -> removed_kind c = false.
Proof.
  intros c H.
  pose proof (by_cases_on_ascii
                (fun c => implb (kept c) (negb (removed_kind c)))
                (eq_refl true) c) as E.
  cbv beta in E. rewrite H in E. simpl in E. apply negb_true_iff. exact E.
Qed.

Lemma filter_all : forall p s, Str.all p (Str.filter p s) = true.
Proof.
  intros p s. induction s as [|c s IH]; simpl; [reflexivity|].
  destruct (p c) eqn:E; simpl; [rewrite E|]; assumption.
Qed.

Lemma filter_fixed : forall p s, Str.all p s = true -> Str.filter p s = s.
Proof.
  intros p s. induction s as [|c s IH]; simpl; [reflexivity|].
  intro H. apply andb_true_iff in H as [Hc Hs].
  rewrite Hc, IH by assumption. reflexivity.
Qed.

Lemma lower_fixed : forall s, Str.all kept s = true -> Str.lower s = s.
Proof.
  induction s as [|c s IH]; simpl; [reflexivity|].
  intro H. apply andb_true_iff in H as [Hc Hs].
  unfold Str.lower in *. simpl.
  rewrite lower_char_kept, IH by assumption. reflexivity.
Qed.

Lemma all_weaken : forall (p q : ascii -> bool) s,
  (forall c, p c = true -> q c = true) -> Str.all p s = true -> Str.all q s = true.
Proof.
  intros p q s Hpq. induction s as [|c s IH]; simpl; [reflexivity|].
  intro H. apply andb_true_iff in H as [Hc Hs].
  rewrite (Hpq _ Hc), IH by assumption. reflexivity.
Qed.

Lemma normalize_all_kept : forall s, Str.all kept (normalize s) = true.
Proof.
  intro s. rewrite normalize_filter. apply filter_all.
Qed.

(** C8. [normalize] is idempotent: normalizing a normalized name changes
    nothing. *)
Theorem normalize_idempotent : forall s, normalize (normalize s) = normalize s.
Proof.
  intro s.
  rewrite (normalize_filter (normalize s)).
  rewrite lower_fixed by apply normalize_all_kept.
  apply filter_fixed, normalize_all_kept.
Qed.

(** C9. The output of [normalize] is the lowercased input with every
    character outside a-z, 0, 1 deleted: it consists of lowercase letters
    and the digits 0 and 1 only, so it holds no digit from 2 to 9, no
    uppercase letter, no whitespace and no punctuation. *)
Theorem normalize_keeps_only_az01 : forall s,
  normalize s = Str.filter kept (Str.lower s)
  /\ Str.all kept (normalize s) = true
  /\ Str.all (fun c => negb (removed_kind c)) (normalize s) = true.
Proof.
  intro s. split; [apply normalize_filter|]. split; [apply normalize_all_kept|].
  apply all_weaken with (p := kept); [|apply normalize_all_kept].
  intros c H. rewrite (kept_not_removed_kind _ H). reflexivity.
Qed.

(** Digits other than 0 and 1 disappear from a name, whatever surrounds them. *)
Example normalize_schalke : normalize "FC Schalke 04 (1904 e.V.)" = "fcschalke010ev".
Proof. reflexivity. Qed.

(* ================================================================== *)
(** * The resolver *)

Section Resolver.

Variable ratio : string -> string -> Q.
Variable target : string.

Lemma Qltb_true : forall x y, Qltb x y = true <-> (x < y)%Q.
Proof.
  intros x y. unfold Qltb. rewrite negb_true_iff.
  split.
  - intro H. apply Qnot_le_lt. intro L. apply Qle_bool_iff in L. congruence.
  - intro H. destruct (Qle_bool y x) eqn:E; [|reflexivity].
    apply Qle_bool_iff in E. exfalso. exact (Qlt_not_le _ _ H E).
Qed.

Lemma Qltb_false : forall x y, Qltb x y = false <-> (y <= x)%Q.
Proof.
  intros x y. unfold Qltb. rewrite negb_false_iff. apply Qle_bool_iff.
Qed.

(** On an entry that is no hit the loop only compares ratios. *)
Lemma scan_index_no_hit : forall d h n rest best,
  no_hit target (d, h, n) ->
  scan_index ratio target ((d, h, n) :: rest) best =
  if Qltb (snd best) (ratio n target)
  then scan_index ratio target rest (Some h, Some d, ratio n target)
  else scan_index ratio target rest best.
Proof.
  intros d h n rest best (Hne & H1 & H2). simpl in *.
  apply String.eqb_neq in Hne. rewrite Hne, H1, H2. reflexivity.
Qed.

(** Scanning entries whose ratios stay below [q] keeps the best ratio
    below [q]. *)
Lemma scan_index_prefix_below : forall (q : Q) pre best,
  Forall (no_hit target) pre ->
  Forall (fun e => (ratio_of ratio target e < q)%Q) pre ->
  (snd best < q)%Q ->
  exists best', (snd best' < q)%Q /\
    forall rest, scan_index ratio target (pre ++ rest) best
                 = scan_index ratio target rest best'.
Proof.
  intros q pre. induction pre as [|[[d h] n] pre IH]; intros best Hhit Hlt Hb.
  - exists best. split; [assumption|reflexivity].
  - inversion Hhit as [|? ? Hh Hhit']; subst.
    inversion Hlt as [|? ? Hl Hlt']; subst.
    unfold ratio_of in Hl; simpl in Hl.
    destruct (Qltb (snd best) (ratio n target)) eqn:E.
    + destruct (IH (Some h, Some d, ratio n target) Hhit' Hlt' Hl) as (b' & Hb' & Heq).
      exists b'. split; [assumption|]. intro rest.
      rewrite <- app_comm_cons, scan_index_no_hit, E by assumption. apply Heq.
    + destruct (IH best Hhit' Hlt' Hb) as (b' & Hb' & Heq).
      exists b'. split; [assumption|]. intro rest.
      rewrite <- app_comm_cons, scan_index_no_hit, E by assumption. apply Heq.
Qed.

(** Scanning entries whose ratios do not exceed the best one keeps it. *)
Lemma scan_index_suffix_keeps : forall post best,
  Forall (no_hit target) post ->
  Forall (fun e => (ratio_of ratio target e <= snd best)%Q) post ->
  scan_index ratio target post best =
  if Qle_bool (65 # 100) (snd best) then fst best else (None, None).
Proof.
  induction post as [|[[d h] n] post IH]; intros best Hhit Hle.
  - reflexivity.
  - inversion Hhit as [|? ? Hh Hhit']; subst.
    inversion Hle as [|? ? Hl Hle']; subst.
    unfold ratio_of in Hl; simpl in Hl.
    rewrite scan_index_no_hit by assumption.
    apply Qltb_false in Hl. rewrite Hl. apply IH; assumption.
Qed.

(** With no exact and no substring hit and every ratio below 0.65,
    nothing is found. *)
Lemma scan_index_below_threshold : forall index,
  Forall (no_hit target) index ->
  Forall (fun e => (ratio_of ratio target e < 65 # 100)%Q) index ->
  scan_index ratio target index (None, None, 0%Q) = (None, None).
Proof.
  intros index Hhit Hlt.
  destruct (scan_index_prefix_below (65 # 100) index (None, None, 0%Q) Hhit Hlt)
    as (b' & Hb' & Heq); [reflexivity|].
  specialize (Heq []). rewrite app_nil_r in Heq. rewrite Heq. simpl.
  destruct (Qle_bool (65 # 100) (snd b')) eqn:E; [|reflexivity].
  apply Qle_bool_iff in E. exfalso. exact (Qlt_not_le _ _ Hb' E).
Qed.

(** With no hit, an entry whose ratio is at least 0.65, above the ratio of
    every entry before it and not below the ratio of any entry after it is
    the one returned. *)
Lemma scan_index_best : forall pre d h n post,
  Forall (no_hit target) (pre ++ (d, h, n) :: post) ->
  (65 # 100 <= ratio n target)%Q ->
  Forall (fun e => (ratio_of ratio target e < ratio n target)%Q) pre ->
  Forall (fun e => (ratio_of ratio target e <= ratio n target)%Q) post ->
  scan_index ratio target (pre ++ (d, h, n) :: post) (None, None, 0%Q)
  = (Some h, Some d).
Proof.
  intros pre d h n post Hhit Hq Hpre Hpost.
  apply Forall_app in Hhit as [Hhit1 Hhit2].
  inversion Hhit2 as [|? ? Hh Hhit3]; subst.
  assert (H0 : (snd (None : option string, None : option string, 0%Q)
                < ratio n target)%Q).
  { simpl. eapply Qlt_le_trans; [|exact Hq]. reflexivity. }
  destruct (scan_index_prefix_below _ pre (None, None, 0%Q) Hhit1 Hpre H0)
    as (b' & Hb' & Heq).
  rewrite Heq, scan_index_no_hit by assumption.
  apply Qltb_true in Hb'. rewrite Hb'.
  rewrite scan_index_suffix_keeps by assumption. simpl.
  apply Qle_bool_iff in Hq. rewrite Hq. reflexivity.
Qed.

End Resolver.

(** C5. For every query and every index with no exact and no substring
    hit: when every candidate's ratio is below 0.65 the resolver returns
    (None, None); when a candidate's ratio is at least 0.65 and is the best
    one, the first such in index order, the resolver returns that
    candidate's link and display name. *)
Theorem find_in_index_fuzzy : forall ratio index team,
  Forall (no_hit (normalize team)) index ->
  (Forall (fun e => (ratio_of ratio (normalize team) e < 65 # 100)%Q) index ->
   find_in_index ratio index team = (None, None))
  /\ (forall (pre : list entry) d h n post,
        index = (pre ++ (d, h, n) :: post)%list ->
        (65 # 100 <= ratio n (normalize team))%Q ->
        Forall (fun e => (ratio_of ratio (normalize team) e
                          < ratio n (normalize team))%Q) pre ->
        Forall (fun e => (ratio_of ratio (normalize team) e
                          <= ratio n (normalize team))%Q) post ->
        find_in_index ratio index team = (Some h, Some d)).
Proof.
  intros ratio index team Hhit. split.
  - intro Hlt. apply scan_index_below_threshold; assumption.
  - intros pre d h n post -> Hq Hpre Hpost.
    apply scan_index_best; assumption.
Qed.

(* ================================================================== *)
(** * The rating pattern *)

Lemma elo_digit_not_sep : forall c,
  cor (cchar ":") space c = true -> elo_digit c = false.
Proof.
  intros c H.
  pose proof (by_cases_on_ascii
                (fun c => implb (cor (cchar ":") space c) (negb (elo_digit c)))
                (eq_refl true) c) as E.
  cbv beta in E. rewrite H in E. simpl in E. apply negb_true_iff. exact E.
Qed.

(** A starred class followed by something that cannot start with a
    character of the class: giving characters back never helps, so the
    continuation sees the string after the whole run. *)
Lemma rep_star_skip : forall (A : Type) (k : string -> option A) s,
  (forall c s', cor (cchar ":") space c = true -> k (String c s') = None) ->
  rep_greedy (cor (cchar ":") space) 0 None s k = k (skip_sep s).
Proof.
  intros A k s Hk. induction s as [|c s IH]; simpl; [reflexivity|].
  destruct (cor (cchar ":") space c) eqn:E; [|reflexivity].
  rewrite IH. destruct (k (skip_sep s)); [reflexivity|].
  apply Hk. exact E.
Qed.

Lemma rep_greedy_exhausted : forall (A : Type) (c : cls) s (k : string -> option A),
  rep_greedy c 0 (Some 0) s k = k s.
Proof. intros A c s k. destruct s; reflexivity. Qed.

(** The group [[1-10]{3,4}] in front of a continuation that accepts. *)
Lemma rep_elo_digits : forall (A : Type) (f : string -> A) r,
  rep_greedy elo_digit 3 (Some 4) r (fun s => Some (f s)) =
  match r with
  | String a (String b (String c rest)) =>
      if elo_digit a && elo_digit b && elo_digit c then
        match rest with
        | String d rest' => if elo_digit d then Some (f rest') else Some (f rest)
        | "" => Some (f rest)
        end
      else None
  | _ => None
  end.
Proof.
  intros A f r.
  destruct r as [|a [|b [|c [|d rest']]]]; cbn;
    repeat match goal with
           | |- context [elo_digit ?x] => destruct (elo_digit x); cbn
           end; rewrite ?rep_greedy_exhausted; reflexivity.
Qed.

Lemma take_length_append : forall pre s, Str.take (length pre) (pre ++ s) = pre.
Proof.
  induction pre as [|c pre IH]; intro s; simpl; [reflexivity|].
  rewrite IH. reflexivity.
Qed.

Lemma length_append : forall pre s, length (pre ++ s) = length pre + length s.
Proof.
  induction pre as [|c pre IH]; intro s; simpl; [reflexivity|].
  rewrite IH. reflexivity.
Qed.

(** What a match consumed in front of the rest. *)
Lemma consumed_append : forall pre s, consumed (pre ++ s) s = pre.
Proof.
  intros pre s. unfold consumed. rewrite length_append.
  replace (length pre + length s - length s) with (length pre) by lia.
  apply take_length_append.
Qed.

(** What the pattern does at one position. *)
Lemma match_at_elo : forall t,
  match match_at elo_re t with
  | Some m => binary_figure_at t = true /\ group1 m = Some (elo_group t)
  | None => binary_figure_at t = false
  end.
Proof.
  intro t. unfold match_at, elo_re, binary_figure_at, figure_after, elo_group.
  destruct t as [|x [|y [|z t]]];
    cbn [cat lit run Str.startswith Str.drop andb]; unfold cchar;
    rewrite ?(Ascii.eqb_sym "E" x), ?(Ascii.eqb_sym "l" y), ?(Ascii.eqb_sym "o" z).
  - reflexivity.
  - destruct (Ascii.eqb x "E"); reflexivity.
  - destruct (Ascii.eqb x "E"); [|reflexivity].
    destruct (Ascii.eqb y "l"); reflexivity.
  - destruct (Ascii.eqb x "E"); [|reflexivity].
    destruct (Ascii.eqb y "l"); [|reflexivity].
    destruct (Ascii.eqb z "o"); [|reflexivity].
    cbn [andb].
    rewrite rep_star_skip.
    + rewrite rep_elo_digits.
      destruct (skip_sep t) as [|a [|b [|c rest]]]; try reflexivity.
      cbn [Str.take Str.all Str.drop length Nat.eqb].
      rewrite andb_true_r.
      destruct (elo_digit a && elo_digit b && elo_digit c) eqn:E.
      * apply andb_true_iff in E as [E Ec]. apply andb_true_iff in E as [Ea Eb].
        rewrite Ea, Eb, Ec.
        destruct rest as [|d rest']; [split; reflexivity|].
        destruct (elo_digit d); (split; [reflexivity|]); cbn [group1]; f_equal.
        -- apply (consumed_append (String a (String b (String c (String d ""))))).
        -- apply (consumed_append (String a (String b (String c "")))).
      * cbn [andb]. rewrite andb_assoc. exact E.
    + intros c s' Hc. cbn [run].
      rewrite rep_elo_digits. destruct s' as [|b [|c' rest]]; try reflexivity.
      rewrite (elo_digit_not_sep _ Hc). reflexivity.
Qed.

(** [search] finds nothing exactly on the pages without a binary figure. *)
Lemma search_elo_none : forall page,
  search elo_re page = None <-> has_binary_figure page = false.
Proof.
  induction page as [|c page IH]; cbn [search has_binary_figure].
  - pose proof (match_at_elo "") as H.
    destruct (match_at elo_re ""); [destruct H as [H _]; discriminate H|].
    rewrite H. simpl. tauto.
  - pose proof (match_at_elo (String c page)) as H.
    destruct (match_at elo_re (String c page)).
    + destruct H as [H _]. rewrite H. simpl. split; discriminate.
    + rewrite H. simpl. exact IH.
Qed.

(** A match of [search] captures the group of some suffix with a binary
    figure. *)
Lemma search_elo_some : forall page m,
  search elo_re page = Some m ->
  exists t, binary_figure_at t = true /\ group1 m = Some (elo_group t).
Proof.
  induction page as [|c page IH]; intros m; cbn [search].
  - pose proof (match_at_elo "") as H.
    destruct (match_at elo_re ""); [|discriminate].
    intro E; injection E as <-. exists "". exact H.
  - pose proof (match_at_elo (String c page)) as H.
    destruct (match_at elo_re (String c page)).
    + intro E; injection E as <-. exists (String c page). exact H.
    + apply IH.
Qed.

Lemma elo_digit_cases : forall c, elo_digit c = true -> c = "0"%char \/ c = "1"%char.
Proof.
  intros c H.
  pose proof (by_cases_on_ascii
                (fun c => implb (elo_digit c) (Ascii.eqb c "0" || Ascii.eqb c "1"))
                (eq_refl true) c) as E.
  cbv beta in E. rewrite H in E. simpl in E.
  apply orb_true_iff in E as [E|E]; apply Ascii.eqb_eq in E; auto.
Qed.

Lemma elo_group_binary : forall t, binary_figure_at t = true -> binary_run (elo_group t).
Proof.
  intros t H. unfold binary_figure_at, figure_after in H.
  apply andb_true_iff in H as [H Hall]. apply andb_true_iff in H as [_ Hlen].
  apply Nat.eqb_eq in Hlen. unfold elo_group, binary_run.
  destruct (skip_sep (Str.drop 3 t)) as [|a [|b [|c rest]]]; try discriminate Hlen.
  cbn [Str.drop Str.take Str.all] in *.
  destruct rest as [|d rest'].
  - split; [left; reflexivity|exact Hall].
  - destruct (elo_digit d) eqn:Ed.
    + split; [right; reflexivity|].
      cbn [Str.take Str.all]. rewrite Ed.
      apply andb_true_iff in Hall as [Ha Hall]. apply andb_true_iff in Hall as [Hb Hall].
      apply andb_true_iff in Hall as [Hc _]. rewrite Ha, Hb, Hc. reflexivity.
    + split; [left; reflexivity|exact Hall].
Qed.

(** [int] of a captured text: a number from 0 to 1111 whose decimal
    digits are 0 or 1. *)
Lemma py_int_binary_run : forall g,
  binary_run g -> exists v, py_int g = Ok v /\ (0 <= v <= 1111)%Z /\ digits01 v = true.
Proof.
  intros g [Hlen Hall].
  destruct g as [|a [|b [|c [|d [|e g]]]]];
    try (destruct Hlen as [Hlen|Hlen]; discriminate Hlen);
    cbn [Str.all] in Hall;
    repeat match type of Hall with
           | (_ && _) = true => let H := fresh "H" in apply andb_true_iff in Hall as [H Hall]
           end;
    repeat match goal with
           | H : elo_digit ?x = true |- _ =>
               destruct (elo_digit_cases _ H); subst x; clear H
           end;
    (eexists; split; [reflexivity|split; [split; discriminate|reflexivity]]).
Qed.

(* ================================================================== *)
(** * The rating fetcher *)

Lemma get_elo_for_team_returns : forall w team default,
  exists v, get_elo_for_team w team default = Ok v.
Proof.
  intros w team default. unfold get_elo_for_team.
  destruct (get_elo_try w team default) as [[v|]|e]; eexists; reflexivity.
Qed.

Lemma get_elo_resolution_fails : forall w team default,
  resolution_fails w team -> get_elo_for_team w team default = Ok default.
Proof.
  intros w team default H. unfold resolution_fails in H.
  unfold get_elo_for_team, get_elo_try.
  destruct (find_clubelo_href w team) as [[[[|c href]|] d]|e]; cbn [bind fst];
    try reflexivity; contradiction.
Qed.

Lemma get_elo_fetch_fails : forall w team default,
  fetch_fails w team -> get_elo_for_team w team default = Ok default.
Proof.
  intros w team default (href & e & (Hne & d & Hf) & He).
  unfold get_elo_for_team, get_elo_try. rewrite Hf. cbn [bind fst].
  destruct href as [|c href]; [congruence|].
  rewrite He. reflexivity.
Qed.

Lemma get_elo_no_rating : forall w team default,
  no_rating_on_page w team -> get_elo_for_team w team default = Ok default.
Proof.
  intros w team default (href & html & (Hne & d & Hf) & Hh & Hs & Ht).
  unfold get_elo_for_team, get_elo_try. rewrite Hf. cbn [bind fst].
  destruct href as [|c href]; [congruence|].
  rewrite Hh. cbn [bind fst]. rewrite Hs.
  destruct (soup_get_text w html " ") as [text|e]; cbn [bind fst]; [|reflexivity].
  rewrite Ht. reflexivity.
Qed.

(** The two ratings of a row are the values [get_elo_for_team] returns:
    the [except] of the loop is never reached. *)
Lemma row_ratings_fetched : forall w cached opponent,
  exists man opp,
    row_ratings w cached opponent = (man, opp)
    /\ get_elo_for_team w opponent 1500 = Ok opp
    /\ match cached with
       | Some v => man = v
       | None => get_elo_for_team w "Man United" 1700 = Ok man
       end.
Proof.
  intros w cached opponent. unfold row_ratings.
  destruct (get_elo_for_team_returns w opponent 1500) as [opp Ho].
  destruct cached as [v|].
  - exists v, opp. cbn [bind fst]. rewrite Ho. auto.
  - destruct (get_elo_for_team_returns w "Man United" 1700) as [man Hm].
    exists man, opp. rewrite Hm. cbn [bind fst]. rewrite Ho. auto.
Qed.

(** C6. [get_elo_for_team] never raises: it always returns an integer,
    and that integer is the default whenever resolution fails, the fetch
    fails or the pattern matches nothing on the page; the outcome model
    is then handed the two integers it returned. *)
Theorem get_elo_for_team_never_raises : forall w team default,
  (exists v, get_elo_for_team w team default = Ok v)
  /\ (resolution_fails w team \/ fetch_fails w team \/ no_rating_on_page w team ->
      get_elo_for_team w team default = Ok default)
  /\ (forall cached, exists man opp,
        row_ratings w cached team = (man, opp)
        /\ get_elo_for_team w team 1500 = Ok opp
        /\ match cached with
           | Some v => man = v
           | None => get_elo_for_team w "Man United" 1700 = Ok man
           end).
Proof.
  intros w team default. split; [apply get_elo_for_team_returns|]. split.
  - intros [H|[H|H]].
    + apply get_elo_resolution_fails; assumption.
    + apply get_elo_fetch_fails; assumption.
    + apply get_elo_no_rating; assumption.
  - intro cached. apply row_ratings_fetched.
Qed.

(** A value other than the default was captured on the page. *)
Lemma get_elo_captured : forall w team default v,
  get_elo_for_team w team default = Ok v -> v <> default ->
  exists page m g,
    page_of w team page
    /\ search elo_re page = Some m
    /\ group1 m = Some g
    /\ py_int g = Ok v.
Proof.
  intros w team default v. unfold get_elo_for_team, get_elo_try.
  destruct (find_clubelo_href w team) as [[[[|c href]|] d]|e] eqn:Hf; cbn [bind fst];
    try (intros E N; injection E as E; congruence).
  destruct (fetch_page_text w (CLUBELO_BASE ++ String c href)) as [html|e] eqn:Hh; cbn [bind fst];
    try (intros E N; injection E as E; congruence).
  assert (Hres : resolved w team (String c href)).
  { split; [discriminate|]. exists d. exact Hf. }
  destruct (search elo_re html) as [m|] eqn:Hs.
  - destruct (search_elo_some _ _ Hs) as (t & _ & Hg).
    unfold int_group1. rewrite Hg.
    destruct (py_int (elo_group t)) as [x|e] eqn:Hx; cbn [bind fst];
      try (intros E N; injection E as E; congruence).
    intros E N. injection E as <-.
    exists html, m, (elo_group t). repeat split; try assumption.
    exists (String c href), html. auto.
  - destruct (soup_get_text w html " ") as [text|e] eqn:Ht; cbn [bind fst];
      try (intros E N; injection E as E; congruence).
    destruct (search elo_re text) as [m|] eqn:Hs2;
      try (intros E N; injection E as E; congruence).
    destruct (search_elo_some _ _ Hs2) as (t & _ & Hg).
    unfold int_group1. rewrite Hg.
    destruct (py_int (elo_group t)) as [x|e] eqn:Hx; cbn [bind fst];
      try (intros E N; injection E as E; congruence).
    intros E N. injection E as <-.
    exists text, m, (elo_group t). repeat split; try assumption.
    exists (String c href), html. auto.
Qed.

Lemma elo_digit_not_2_to_9 : forall c, elo_digit c = true -> cneg digit_2_to_9 c = true.
Proof.
  intros c H.
  pose proof (by_cases_on_ascii
                (fun c => implb (elo_digit c) (cneg digit_2_to_9 c))
                (eq_refl true) c) as E.
  cbv beta in E. rewrite H in E. exact E.
Qed.

Lemma figures_have_2_to_9_no_binary : forall page,
  figures_have_2_to_9 page = true -> has_binary_figure page = false.
Proof.
  assert (Hat : forall t,
             negb (Str.startswith "Elo" t)
             || negb (Str.all (cneg digit_2_to_9) (figure_after t)) = true ->
             binary_figure_at t = false).
  { intros t H. unfold binary_figure_at.
    destruct (Str.startswith "Elo" t); [|reflexivity].
    destruct (Str.all elo_digit (figure_after t)) eqn:E;
      [|rewrite andb_false_r; reflexivity].
    apply (all_weaken _ _ _ elo_digit_not_2_to_9) in E.
    rewrite E in H. discriminate H. }
  induction page as [|c page IH]; cbn [figures_have_2_to_9 has_binary_figure];
    intro H; apply andb_true_iff in H as [H1 H2].
  - rewrite (Hat _ H1). reflexivity.
  - rewrite (Hat _ H1), (IH H2). reflexivity.
Qed.

(** Where the fetcher stands after the resolver and the fetch. *)
Lemma get_elo_stages : forall w team,
  resolution_fails w team \/ fetch_fails w team
  \/ exists href html,
       resolved w team href /\ fetch_page_text w (CLUBELO_BASE ++ href) = Ok html.
Proof.
  intros w team. unfold resolution_fails, fetch_fails.
  destruct (find_clubelo_href w team) as [[[[|c href]|] d]|e] eqn:Hf; auto.
  assert (Hres : resolved w team (String c href)).
  { split; [discriminate|]. exists d. exact Hf. }
  destruct (fetch_page_text w (CLUBELO_BASE ++ String c href)) as [html|e] eqn:Hh.
  - right; right. exists (String c href), html. auto.
  - right; left. exists (String c href), e. auto.
Qed.

Lemma get_elo_no_binary_figure : forall w team default,
  (forall page, page_of w team page -> has_binary_figure page = false) ->
  get_elo_for_team w team default = Ok default.
Proof.
  intros w team default H.
  destruct (get_elo_stages w team) as [F|[F|(href & html & Hres & Hh)]].
  - apply get_elo_resolution_fails; assumption.
  - apply get_elo_fetch_fails; assumption.
  - apply get_elo_no_rating. exists href, html. repeat split; try apply Hres; try assumption.
    + apply search_elo_none, H. exists href, html. auto.
    + destruct (soup_get_text w html " ") as [text|e] eqn:Ht; [|exact I].
      apply search_elo_none, H. exists href, html. auto.
Qed.

(** The claim as stated fails: a captured run with leading zeros gives a
    rating below 100. *)
Lemma get_elo_for_team_below_100 :
  ~ (forall w team default v,
       get_elo_for_team w team default = Ok v -> v <> default ->
       (100 <= v <= 1111)%Z).
Proof.
  intro H.
  assert (E : get_elo_for_team (club_world "Elo: 0001") "Leeds" 1500 = Ok 1%Z)
    by reflexivity.
  apply H in E; [lia|discriminate].
Qed.

(** C10, amended. A value other than the default is [int] of the text the
    pattern captured on the page: three or four characters, each 0 or 1,
    so a number from 0 to 1111 whose decimal digits are 0 or 1 (it is
    below 100 when the text starts with zeros).  When no label [Elo] of the
    markup or of the text is followed by three characters from {0, 1}, in
    particular when each figure has a digit from 2 to 9 among its first
    three characters, the default is returned. *)
Theorem get_elo_for_team_value : forall w team default,
  (forall v, get_elo_for_team w team default = Ok v -> v <> default ->
     exists page m g,
       page_of w team page
       /\ search elo_re page = Some m
       /\ group1 m = Some g
       /\ binary_run g
       /\ py_int g = Ok v
       /\ (0 <= v <= 1111)%Z
       /\ digits01 v = true)
  /\ ((forall page, page_of w team page -> has_binary_figure page = false) ->
      get_elo_for_team w team default = Ok default)
  /\ ((forall page, page_of w team page -> figures_have_2_to_9 page = true) ->
      get_elo_for_team w team default = Ok default).
Proof.
  intros w team default. split; [|split].
  - intros v Hv Hne.
    destruct (get_elo_captured _ _ _ _ Hv Hne) as (page & m & g & Hp & Hs & Hg & Hi).
    exists page, m, g.
    destruct (search_elo_some _ _ Hs) as (t & Hb & Hg').
    assert (Hrun : binary_run g).
    { rewrite Hg in Hg'. injection Hg' as ->. apply elo_group_binary, Hb. }
    destruct (py_int_binary_run _ Hrun) as (v' & Hv' & Hrange & Hd).
    rewrite Hi in Hv'. injection Hv' as <-.
    do 6 (split; [assumption|]). exact Hd.
  - apply get_elo_no_binary_figure.
  - intro H. apply get_elo_no_binary_figure.
    intros page Hp. apply figures_have_2_to_9_no_binary, H, Hp.
Qed.

(** The pages of Leeds in [club_world page]. *)
Lemma club_world_page : forall page p, page_of (club_world page) "Leeds" p -> p = page.
Proof.
  intros page p (href & html & (Hne & d & Hf) & Hh & Hp).
  vm_compute in Hf. injection Hf as <- _.
  vm_compute in Hh. injection Hh as <-.
  destruct Hp as [Hp|Hp]; [exact Hp|].
  cbn in Hp. injection Hp as Hp. symmetry. exact Hp.
Defined.

Lemma get_elo_for_team_value_witness :
  ((0 <= 101 <= 1111)%Z /\ digits01 101 = true)
  /\ get_elo_for_team (club_world "ClubElo: 1850 points") "Leeds" 1500 = Ok 1500%Z.
Proof.
  split.
  - destruct (proj1 (get_elo_for_team_value (club_world "Elo: 0101") "Leeds" 1500%Z)
                101%Z eq_refl ltac:(discriminate))
      as (page & m & g & _ & _ & _ & _ & _ & Hr & Hd).
    split; assumption.
  - apply (proj2 (proj2 (get_elo_for_team_value
                           (club_world "ClubElo: 1850 points") "Leeds" 1500%Z))).
    intros p Hp. apply club_world_page in Hp. subst p. reflexivity.
Defined.

Ltac no_hits :=
  repeat constructor; try discriminate; reflexivity.

Lemma find_in_index_fuzzy_witness :
  find_in_index ratio_060 three_clubs "Chelsea" = (None, None)
  /\ find_in_index ratio_tie three_clubs "Chelsea" = (Some "/Arsenal", Some "Arsenal").
Proof.
  split.
  - apply (proj1 (find_in_index_fuzzy ratio_060 three_clubs "Chelsea"
                    ltac:(no_hits))).
    repeat constructor.
  - apply (proj2 (find_in_index_fuzzy ratio_tie three_clubs "Chelsea"
                    ltac:(no_hits))
             [("Leeds United", "/LeedsUnited", "leedsunited")]
             "Arsenal" "/Arsenal" "arsenal"
             [("Everton", "/Everton", "everton")] eq_refl).
    + discriminate.
    + repeat constructor.
    + repeat constructor. discriminate.
Defined.

(* ================================================================== *)
(** * The fixture parser *)

Lemma length_drop : forall n s, length (Str.drop n s) = length s - n.
Proof.
  induction n as [|n IH]; intro s; cbn [Str.drop].
  - lia.
  - destruct s as [|c s]; [reflexivity|]. cbn [length]. rewrite IH. lia.
Qed.

(** [Str.remove] has the fuel it needs: any fuel from the length of the
    string on gives the same result. *)
Lemma remove_fuel_enough : forall old fuel1 fuel2 s,
  old <> "" -> length s <= fuel1 -> length s <= fuel2 ->
  Str.remove_fuel fuel1 old s = Str.remove_fuel fuel2 old s.
Proof.
  intros old fuel1. induction fuel1 as [|f1 IH]; intros fuel2 s Hold H1 H2.
  - destruct s; [|cbn in H1; lia]. destruct fuel2; reflexivity.
  - destruct s as [|c s]; [destruct fuel2; reflexivity|].
    destruct fuel2 as [|f2]; [cbn in H2; lia|].
    cbn [Str.remove_fuel]. cbn [length] in H1, H2.
    destruct (Str.startswith old (String c s)).
    + assert (L : length (Str.drop (length old) (String c s)) <= length s).
      { rewrite length_drop. destruct old; [congruence|]. cbn [length]. lia. }
      apply IH; [assumption|lia|lia].
    + f_equal. apply IH; [assumption|lia|lia].
Qed.

(** A single candidate comes out as it is, whatever the limit. *)
Lemma unique_limit_single : forall limit f, unique_limit limit [f] [] [] = [f].
Proof.
  intros limit f. cbn [unique_limit mem_key existsb app].
  destruct (limit <=? Z.of_nat (List.length [f]))%Z; reflexivity.
Qed.

Lemma scan_leeds_lines : scan_lines leeds_lines = [leeds_fixture ""].
Proof. vm_compute. reflexivity. Qed.

(** C2. On the five lines of the example the scan starts at the second
    line: the date on the first line is never read, and the one record
    produced has an empty [date_text]. *)
Theorem parse_lines_leeds_example : forall limit,
  parse_lines leeds_lines limit = [leeds_fixture ""]
  /\ parse_lines leeds_lines limit <> [leeds_fixture "Sun, Aug 24"].
Proof.
  intro limit. unfold parse_lines.
  rewrite scan_leeds_lines, unique_limit_single.
  split; [reflexivity|discriminate].
Qed.

(** With any line in front of the date the record carries the date. *)
Lemma parse_lines_after_heading : forall limit,
  parse_lines ("Fixtures" :: leeds_lines) limit = [leeds_fixture "Sun, Aug 24"].
Proof.
  intro limit. unfold parse_lines.
  assert (E : scan_lines ("Fixtures" :: leeds_lines) = [leeds_fixture "Sun, Aug 24"])
    by (vm_compute; reflexivity).
  rewrite E. apply unique_limit_single.
Qed.

(** The last loop, from any turn on.  While fewer than [max 1 limit]
    records are out (and [seen] has grown with [out]), the loop appends the
    first occurrences of the new keys until that many records are out. *)
Lemma unique_limit_from : forall limit fixtures seen out,
  List.length seen = List.length out ->
  (List.length out < Z.to_nat (Z.max 1 limit))%nat ->
  unique_limit limit fixtures seen out =
  (out ++ firstn (Z.to_nat (Z.max 1 limit) - List.length out)
                 (first_occurrences fixtures seen))%list.
Proof.
  intros limit fixtures. induction fixtures as [|f rest IH]; intros seen out Hs Hlt.
  - cbn [unique_limit first_occurrences]. rewrite firstn_nil, app_nil_r. reflexivity.
  - cbn [unique_limit first_occurrences].
    destruct (mem_key (key_of f) seen) eqn:Hm.
    + destruct out as [|o out'].
      { destruct seen; [discriminate Hm|discriminate Hs]. }
      destruct (limit <=? Z.of_nat (List.length (o :: out')))%Z eqn:Hl.
      * apply Z.leb_le in Hl. cbn [List.length] in Hl, Hlt. lia.
      * apply IH; assumption.
    + destruct (limit <=? Z.of_nat (List.length (out ++ [f])))%Z eqn:Hl.
      * apply Z.leb_le in Hl. rewrite length_app in Hl. cbn [List.length] in Hl.
        replace (Z.to_nat (Z.max 1 limit) - List.length out)%nat with 1%nat by lia.
        reflexivity.
      * apply Z.leb_gt in Hl. rewrite length_app in Hl. cbn [List.length] in Hl.
        rewrite IH.
        -- rewrite length_app. cbn [List.length].
           replace (Z.to_nat (Z.max 1 limit) - List.length out)%nat
             with (S (Z.to_nat (Z.max 1 limit) - (List.length out + 1)))%nat by lia.
           cbn [firstn]. rewrite <- app_assoc. reflexivity.
        -- cbn [List.length]. rewrite length_app. cbn [List.length]. lia.
        -- rewrite length_app. cbn [List.length]. lia.
Qed.

(** What the last loop returns: the first [max 1 limit] first occurrences. *)
Lemma unique_limit_first_occurrences : forall limit fixtures,
  unique_limit limit fixtures [] [] =
  firstn (Z.to_nat (Z.max 1 limit)) (first_occurrences fixtures []).
Proof.
  intros limit fixtures. rewrite unique_limit_from; [|reflexivity|cbn; lia].
  cbn [List.length app]. rewrite Nat.sub_0_r. reflexivity.
Qed.

Lemma mem_key_In : forall k seen, mem_key k seen = true <-> List.In k seen.
Proof.
  intros [[d o] h] seen. unfold mem_key. rewrite existsb_exists. split.
  - intros ([[d' o'] h'] & Hin & E). cbn in E.
    apply andb_true_iff in E as [E Eh]. apply andb_true_iff in E as [Ed Eo].
    apply String.eqb_eq in Ed, Eo. apply Bool.eqb_prop in Eh. subst. exact Hin.
  - intro Hin. exists (d, o, h). split; [exact Hin|]. cbn.
    rewrite !String.eqb_refl, Bool.eqb_reflx. reflexivity.
Qed.

(** The keys of the first occurrences are new and pairwise different. *)
Lemma first_occurrences_keys : forall fixtures seen,
  NoDup (List.map key_of (first_occurrences fixtures seen))
  /\ forall f, List.In f (first_occurrences fixtures seen) ->
               List.In f fixtures /\ ~ List.In (key_of f) seen.
Proof.
  induction fixtures as [|f rest IH]; intro seen; cbn [first_occurrences].
  - split; [constructor|intros f []].
  - destruct (mem_key (key_of f) seen) eqn:Hm.
    + destruct (IH seen) as [Hnd Hin]. split; [exact Hnd|].
      intros g Hg. destruct (Hin g Hg). split; [right|]; assumption.
    + destruct (IH (key_of f :: seen)) as [Hnd Hin]. split.
      * cbn [List.map]. constructor; [|exact Hnd].
        intro Hk. apply in_map_iff in Hk as (g & Hkg & Hg).
        destruct (Hin g Hg) as [_ Hn]. apply Hn. left. symmetry. exact Hkg.
      * intros g [<-|Hg].
        -- split; [left; reflexivity|]. intro Hk. apply mem_key_In in Hk. congruence.
        -- destruct (Hin g Hg) as [Hr Hn]. split; [right; exact Hr|].
           intro Hk. apply Hn. right. exact Hk.
Qed.

(** For a limit of at least one the loop does what is asked of it: at most
    [limit] records, the first occurrences of their keys, in input order. *)
Lemma unique_limit_positive : forall limit fixtures,
  (1 <= limit)%Z ->
  let out := unique_limit limit fixtures [] [] in
  (Z.of_nat (List.length out) <= limit)%Z
  /\ NoDup (List.map key_of out)
  /\ out = firstn (Z.to_nat limit) (first_occurrences fixtures []).
Proof.
  intros limit fixtures Hl out. subst out.
  rewrite unique_limit_first_occurrences.
  replace (Z.max 1 limit) with limit by lia.
  split; [|split; [|reflexivity]].
  - pose proof (firstn_le_length (Z.to_nat limit) (first_occurrences fixtures [])). lia.
  - destruct (first_occurrences_keys fixtures []) as [Hnd _].
    rewrite <- (firstn_skipn (Z.to_nat limit) (first_occurrences fixtures [])) in Hnd.
    rewrite map_app in Hnd. apply NoDup_app_remove_r in Hnd. exact Hnd.
Qed.

(** C7. With a limit of zero the last loop still returns a record: the
    test of the limit comes after the first append.  On the five lines of
    the example, with a heading in front, one record comes back for
    [limit = 0]. *)
Theorem parse_lines_limit_zero :
  parse_lines ("Fixtures" :: leeds_lines) 0 = [leeds_fixture "Sun, Aug 24"]
  /\ (Z.of_nat (List.length (parse_lines ("Fixtures" :: leeds_lines) 0)) > 0)%Z.
Proof.
  rewrite parse_lines_after_heading. split; [reflexivity|cbn; lia].
Qed.

(* ================================================================== *)
(** * The outcome model: powers of ten *)

Open Scope R_scope.

Lemma Rabs_le_both : forall x y, Rabs x <= y -> - y <= x <= y.
Proof.
  intros x y H. unfold Rabs in H. destruct (Rcase_abs x); lra.
Qed.

Lemma inv_unit : forall s, 1 <= s -> 0 < 1 / s <= 1.
Proof.
  intros s Hs. split.
  - apply Rdiv_lt_0_compat; lra.
  - unfold Rdiv. rewrite Rmult_1_l. rewrite <- Rinv_1.
    apply Rinv_le_contravar; lra.
Qed.

(** A fraction of a small number is small. *)
Lemma scaled_small : forall m d b, 0 <= m <= 1 -> - b <= d <= b -> - b <= m * d <= b.
Proof. intros m d b Hm Hd. split; nra. Qed.

Lemma exp_double : forall x, exp (2 * x) = exp x * exp x.
Proof. intro x. replace (2 * x) with (x + x) by lra. apply exp_plus. Qed.

Lemma exp_3_gt_10 : 10 < exp 3.
Proof.
  pose proof (exp_ineq1_le (3 / 8)) as H8.
  pose proof (exp_double (3 / 8)) as H4.
  pose proof (exp_double (2 * (3 / 8))) as H2.
  pose proof (exp_double (2 * (2 * (3 / 8)))) as H1.
  replace (2 * (2 * (2 * (3 / 8)))) with 3 in H1 by lra.
  set (e8 := exp (3 / 8)) in *.
  set (e4 := exp (2 * (3 / 8))) in *.
  set (e2 := exp (2 * (2 * (3 / 8)))) in *.
  assert (1375 / 1000 * (1375 / 1000) <= e4) by nra.
  assert (189 / 100 * (189 / 100) <= e2) by nra.
  nra.
Qed.

Lemma exp_2_lt_10 : exp 2 < 10.
Proof.
  pose proof exp_le_3 as H. pose proof (exp_pos 1) as P.
  replace 2 with (2 * 1) by lra. rewrite exp_double. nra.
Qed.

Lemma ln_10_bounds : 2 < ln 10 < 3.
Proof.
  split.
  - rewrite <- (ln_exp 2). apply ln_increasing; [apply exp_pos|apply exp_2_lt_10].
  - rewrite <- (ln_exp 3). apply ln_increasing; [lra|apply exp_3_gt_10].
Qed.

Lemma Rpower_10_pos : forall x, 0 < Rpower 10 x.
Proof. intro x. unfold Rpower. apply exp_pos. Qed.

Lemma Rpower_10_mono : forall x y, x <= y -> Rpower 10 x <= Rpower 10 y.
Proof.
  intros x y H. unfold Rpower. pose proof ln_10_bounds as L.
  destruct (Req_dec x y) as [->|N]; [lra|].
  apply Rlt_le, exp_increasing. nra.
Qed.

Lemma Rpower_10_0 : Rpower 10 0 = 1.
Proof. apply Rpower_O. lra. Qed.

Lemma Rpower_10_1 : Rpower 10 1 = 10.
Proof. apply Rpower_1. lra. Qed.

Lemma Rpower_10_2 : Rpower 10 2 = 100.
Proof.
  replace 2 with (1 + 1) by lra. rewrite Rpower_plus, Rpower_10_1. lra.
Qed.

(** One rating point less in the exponent: the factor 10^(-1/400) is
    below 200/201. *)
Lemma Rpower_10_step : Rpower 10 (- 1 / 400) <= 200 / 201.
Proof.
  unfold Rpower. pose proof ln_10_bounds as L.
  set (z := - (- 1 / 400 * ln 10)).
  replace (- 1 / 400 * ln 10) with (- z) by (unfold z; lra).
  assert (Hz : 1 / 200 <= z) by (unfold z; lra).
  pose proof (exp_ineq1_le z) as H. pose proof (exp_pos z) as P.
  pose proof (exp_pos (- z)) as Pm.
  assert (E : exp (- z) * exp z = 1).
  { rewrite <- exp_plus. replace (- z + z) with 0 by lra. apply exp_0. }
  assert (exp (- z) * (201 / 200) <= 1) by nra.
  lra.
Qed.

(** [10 ** x] moves by at most 300 times the move of [x] on [-2, 2]. *)
Lemma Rpower_10_lipschitz : forall a b,
  -2 <= a <= 2 -> -2 <= b <= 2 ->
  Rabs (Rpower 10 a - Rpower 10 b) <= 300 * Rabs (a - b).
Proof.
  assert (Hle : forall a b, -2 <= b -> b <= a -> a <= 2 ->
                 0 <= Rpower 10 a - Rpower 10 b <= 300 * (a - b)).
  { intros a b Hb Hab Ha.
    pose proof (Rpower_10_mono b a Hab) as Hm.
    split; [lra|].
    pose proof ln_10_bounds as L.
    set (z := (a - b) * ln 10).
    assert (Hz : 0 <= z) by (unfold z; nra).
    assert (E : Rpower 10 b = Rpower 10 a * exp (- z)).
    { unfold Rpower. rewrite <- exp_plus. f_equal. unfold z. lra. }
    pose proof (exp_ineq1_le (- z)) as H1.
    pose proof (Rpower_10_mono a 2 Ha) as H2. rewrite Rpower_10_2 in H2.
    pose proof (Rpower_10_pos a) as Pa.
    assert (Rpower 10 a - Rpower 10 b <= Rpower 10 a * z) by (rewrite E; nra).
    assert (z <= 3 * (a - b)) by (unfold z; nra).
    nra. }
  intros a b Ha Hb. destruct (Rle_dec b a) as [H|H].
  - pose proof (Hle a b ltac:(lra) H ltac:(lra)).
    rewrite !Rabs_pos_eq by lra. lra.
  - pose proof (Hle b a ltac:(lra) ltac:(lra) ltac:(lra)).
    rewrite (Rabs_minus_sym (Rpower 10 a)), (Rabs_minus_sym a).
    rewrite !Rabs_pos_eq by lra. lra.
Qed.

(** The power in the specification's example: 10^(-3/4). *)
Lemma Rpower_10_three_quarters :
  1778 / 10000 < Rpower 10 (- 3 / 4) < 1779 / 10000.
Proof.
  set (t := Rpower 10 (- 3 / 4)).
  assert (Ht : 0 < t) by apply Rpower_10_pos.
  assert (E : t ^ 4 = 1 / 1000).
  { unfold t. rewrite <- Rpower_pow by apply Rpower_10_pos.
    rewrite Rpower_mult. replace (- 3 / 4 * INR 4) with (- (INR 3)) by (simpl; lra).
    rewrite Rpower_Ropp, Rpower_pow by lra. lra. }
  split.
  - apply Rnot_le_lt. intro H.
    assert (t ^ 4 <= (1778 / 10000) ^ 4) by (apply pow_incr; lra).
    lra.
  - apply Rnot_le_lt. intro H.
    assert ((1779 / 10000) ^ 4 <= t ^ 4) by (apply pow_incr; lra).
    lra.
Qed.

(* ================================================================== *)
(** * The outcome model in exact arithmetic *)

Lemma Gx_pos : forall x, 0 < Gx x.
Proof. intro x. apply Rpower_10_pos. Qed.

Lemma Gx_anti : forall x y, (x <= y)%Z -> Gx y <= Gx x.
Proof.
  intros x y H. apply Rpower_10_mono.
  assert (IZR (- y) <= IZR (- x)) by (apply IZR_le; lia). lra.
Qed.

Lemma Gx_succ : forall x, Gx (x + 1) = Gx x * Rpower 10 (- 1 / 400).
Proof.
  intro x. unfold Gx. rewrite <- Rpower_plus. f_equal.
  replace (- (x + 1))%Z with (- x - 1)%Z by lia. rewrite minus_IZR. lra.
Qed.

Lemma Gx_ge_1 : forall x, (x <= 0)%Z -> 1 <= Gx x.
Proof.
  intros x H. rewrite <- Rpower_10_0. apply Rpower_10_mono.
  assert (0 <= IZR (- x)) by (apply IZR_le; lia). lra.
Qed.

Lemma Gx_le_100 : forall x, (-800 <= x)%Z -> Gx x <= 100.
Proof.
  intros x H. rewrite <- Rpower_10_2. apply Rpower_10_mono.
  assert (IZR (- x) <= 800) by (apply IZR_le; lia). lra.
Qed.

Lemma Ex_Gx : forall x, Ex x = 1 / (1 + Gx x).
Proof. reflexivity. Qed.

Lemma Ex_unit : forall x, 0 < Ex x < 1.
Proof.
  intro x. rewrite Ex_Gx. pose proof (Gx_pos x) as G.
  split.
  - apply Rdiv_lt_0_compat; lra.
  - apply Rmult_lt_reg_r with (1 + Gx x); [lra|].
    unfold Rdiv. rewrite Rmult_assoc, Rinv_l by lra. lra.
Qed.

(** [Ex x * (1 + Gx x) = 1]: the equation the bounds are read from. *)
Lemma Ex_eqn : forall x, Ex x * (1 + Gx x) = 1.
Proof.
  intro x. rewrite Ex_Gx. pose proof (Gx_pos x). field. lra.
Qed.

Lemma Ex_mono : forall x y, (x <= y)%Z -> Ex x <= Ex y.
Proof.
  intros x y H. pose proof (Gx_anti x y H) as G.
  pose proof (Ex_eqn x) as Hx. pose proof (Ex_eqn y) as Hy.
  pose proof (Ex_unit x). pose proof (Ex_unit y).
  pose proof (Gx_pos x). pose proof (Gx_pos y). nra.
Qed.

Lemma Ex_lower : forall x, (-800 <= x)%Z -> 1 / 101 <= Ex x.
Proof.
  intros x H. pose proof (Gx_le_100 x H) as G. pose proof (Gx_pos x).
  pose proof (Ex_eqn x). pose proof (Ex_unit x). nra.
Qed.

(** One rating point more, below level terms: the expected score grows by
    at least [Ex (x + 1) / 402]. *)
Lemma Ex_step : forall x, (x <= 0)%Z -> Ex x + Ex (x + 1) / 402 <= Ex (x + 1).
Proof.
  intros x H.
  pose proof (Gx_ge_1 x H) as G1. pose proof (Gx_succ x) as Gs.
  pose proof Rpower_10_step as Q. pose proof (Rpower_10_pos (- 1 / 400)) as Qp.
  pose proof (Ex_eqn x) as Hx. pose proof (Ex_eqn (x + 1)) as Hy.
  pose proof (Ex_unit x) as Ux. pose proof (Ex_unit (x + 1)) as Uy.
  set (q := Rpower 10 (- 1 / 400)) in *.
  set (g := Gx x) in *. set (e0 := Ex x) in *. set (e1 := Ex (x + 1)) in *.
  rewrite Gs in Hy.
  (* e1 - e0 = e1 * e0 * g * (1 - q), and e0 * g = 1 - e0 >= 1/2 *)
  assert (D : e1 - e0 = e1 * (e0 * g) * (1 - q)) by nra.
  assert (Hh : 1 / 2 <= e0 * g) by nra.
  assert (0 <= e1 * (e0 * g - 1 / 2) * (1 - q)).
  { apply Rmult_le_pos; [apply Rmult_le_pos|]; lra. }
  nra.
Qed.

Lemma Dx_bounds : forall x, 1 / 10 <= Dx x <= 23 / 100.
Proof.
  intro x. unfold Dx.
  assert (0 <= IZR (Z.abs x)) by (apply IZR_le; lia).
  split; [apply Rmax_l|apply Rmax_lub; lra].
Qed.

Lemma Dx_anti : forall x y, (Z.abs x <= Z.abs y)%Z -> Dx y <= Dx x.
Proof.
  intros x y H. unfold Dx. apply IZR_le in H.
  apply Rle_max_compat_l. lra.
Qed.

Lemma Dx_step : forall x, (x <= -1)%Z -> Dx (x + 1) <= Dx x + 1 / 2000.
Proof.
  intros x H. unfold Dx.
  replace (Z.abs (x + 1)) with (Z.abs x - 1)%Z by lia. rewrite minus_IZR.
  apply Rmax_lub.
  - pose proof (Rmax_l (1 / 10) (23 / 100 - IZR (Z.abs x) / 2000)). lra.
  - pose proof (Rmax_r (1 / 10) (23 / 100 - IZR (Z.abs x) / 2000)). lra.
Qed.

(** Below level terms one rating point more raises the win probability by
    at least [Ex (x + 1) / 1000]: the loss through the larger draw
    probability is a fraction of the gain in expected score. *)
Lemma Wx_step_below : forall x, (x <= -1)%Z -> Wx x + Ex (x + 1) / 1000 <= Wx (x + 1).
Proof.
  intros x H. unfold Wx.
  pose proof (Ex_step x ltac:(lia)) as S. pose proof (Dx_step x H) as D.
  pose proof (Dx_bounds x) as B0. pose proof (Dx_bounds (x + 1)) as B1.
  pose proof (Ex_unit x) as U0. pose proof (Ex_unit (x + 1)) as U1.
  set (e0 := Ex x) in *. set (e1 := Ex (x + 1)) in *.
  set (d0 := Dx x) in *. set (d1 := Dx (x + 1)) in *.
  assert (0 <= (1 - d1 - 77 / 100) * (e1 - e0)) by (apply Rmult_le_pos; lra).
  assert (0 <= (d0 + 1 / 2000 - d1) * e0) by (apply Rmult_le_pos; lra).
  nra.
Qed.

Lemma Wx_step_above : forall x, (0 <= x)%Z -> Wx x <= Wx (x + 1).
Proof.
  intros x H. unfold Wx.
  pose proof (Ex_mono x (x + 1) ltac:(lia)) as S.
  pose proof (Dx_anti x (x + 1) ltac:(lia)) as D.
  pose proof (Dx_bounds x) as B0. pose proof (Dx_bounds (x + 1)) as B1.
  pose proof (Ex_unit x) as U0. pose proof (Ex_unit (x + 1)) as U1.
  nra.
Qed.

Lemma Wx_step : forall x, Wx x <= Wx (x + 1).
Proof.
  intro x. destruct (Z_le_gt_dec 0 x) as [H|H].
  - apply Wx_step_above, H.
  - pose proof (Wx_step_below x ltac:(lia)). pose proof (Ex_unit (x + 1)). lra.
Qed.

Lemma Wx_mono : forall x y, (x <= y)%Z -> Wx x <= Wx y.
Proof.
  intros x y H. replace y with (x + Z.of_nat (Z.to_nat (y - x)))%Z by lia.
  induction (Z.to_nat (y - x)) as [|n IH].
  - rewrite Z.add_0_r. lra.
  - replace (x + Z.of_nat (S n))%Z with (x + Z.of_nat n + 1)%Z by lia.
    eapply Rle_trans; [exact IH|apply Wx_step].
Qed.

(* ================================================================== *)
(** * The outcome model under rounding *)

Lemma unit_roundoff_small : 0 < unit_roundoff < 1 / 10 ^ 15.
Proof. unfold unit_roundoff. lra. Qed.

Lemma exact_rounds_to_nearest : rounds_to_nearest exact.
Proof.
  unfold rounds_to_nearest, exact. repeat split; try reflexivity.
  - intros x y H. exact H.
  - intro x. replace (x - x) with 0 by lra. rewrite Rabs_R0.
    pose proof unit_roundoff_small. pose proof (Rmax_l 1 (Rabs x)). nra.
Defined.

Lemma exact_computes_pow10 : computes_pow10 exact_pow10.
Proof.
  unfold computes_pow10, exact_pow10. repeat split.
  - intro x. apply Rlt_le, Rpower_10_pos.
  - apply Rpower_10_mono.
  - intros x _. replace (Rpower 10 x - Rpower 10 x) with 0 by lra.
    rewrite Rabs_R0. lra.
Defined.

Section Rounded.

Variable rnd : R -> R.
Variable pow10 : R -> R.
Hypothesis Hrnd : rounds_to_nearest rnd.
Hypothesis pow10_nonneg : forall x, 0 <= pow10 x.

Let u := unit_roundoff.

Lemma u_small : 0 < u < 1 / 10 ^ 15.
Proof. apply unit_roundoff_small. Qed.

Lemma rnd_mono : forall x y, x <= y -> rnd x <= rnd y.
Proof. apply Hrnd. Qed.

(** Rounding a number of magnitude at most [b]. *)
Lemma rnd_within : forall b x, 1 <= b -> - b <= x <= b ->
  x - u * b <= rnd x <= x + u * b.
Proof.
  intros b x Hb Hx. destruct Hrnd as (_ & _ & _ & He).
  specialize (He x). apply Rabs_le_both in He. fold u in He.
  assert (Rmax 1 (Rabs x) <= b).
  { apply Rmax_lub; [lra|apply Rabs_le; lra]. }
  pose proof u_small. nra.
Qed.

Lemma rnd_near : forall x, -1 <= x <= 1 -> x - u <= rnd x <= x + u.
Proof.
  intros x Hx. pose proof (rnd_within 1 x ltac:(lra) ltac:(lra)). lra.
Qed.

Lemma rnd_unit : forall x, 0 <= x <= 1 -> 0 <= rnd x <= 1.
Proof.
  intros x Hx. destruct Hrnd as (Hm & H0 & H1 & _).
  split.
  - rewrite <- H0. apply Hm. lra.
  - rewrite <- H1. apply Hm. lra.
Qed.

Lemma of_int_nonneg : forall n, (0 <= n)%Z -> 0 <= of_int rnd n.
Proof.
  intros n H. destruct Hrnd as (Hm & H0 & _). unfold of_int.
  rewrite <- H0. apply Hm. apply IZR_le. exact H.
Qed.

(** The draw probability stays between the floor and the baseline. *)
Lemma draw_gap_bounds : forall x,
  1 / 10 - u <= draw_gap rnd x <= 23 / 100 + 2 * u.
Proof.
  intro x. unfold draw_gap, flit, fsub, fdiv.
  pose proof u_small as Hu.
  destruct Hrnd as (Hm & H0 & H1 & _).
  pose proof (of_int_nonneg (Z.abs x) ltac:(lia)) as Hg.
  set (z := rnd (of_int rnd (Z.abs x) / 2000)).
  assert (Hz : 0 <= z).
  { unfold z. rewrite <- H0. apply Hm. lra. }
  pose proof (rnd_near (1 / 10) ltac:(lra)) as H10.
  pose proof (rnd_near (23 / 100) ltac:(lra)) as H23.
  assert (Hc : rnd (rnd (23 / 100) - z) <= rnd (23 / 100) + u).
  { apply Rle_trans with (rnd (rnd (23 / 100))).
    - apply Hm. lra.
    - pose proof (rnd_near (rnd (23 / 100)) ltac:(lra)). lra. }
  split.
  - apply Rle_trans with (rnd (1 / 10)); [lra|apply Rmax_l].
  - apply Rmax_lub; lra.
Qed.

(** The expected score is a number between 0 and 1. *)
Lemma expected_gap_unit : forall x, 0 <= expected_gap rnd pow10 x <= 1.
Proof.
  intro x. unfold expected_gap, fdiv, fadd.
  destruct Hrnd as (Hm & H0 & H1 & _).
  set (w := pow10 (rnd (of_int rnd (- x) / 400))).
  assert (Hw : 0 <= w) by apply pow10_nonneg.
  assert (Hs : 1 <= rnd (1 + w)).
  { rewrite <- H1. apply Hm. lra. }
  apply rnd_unit. pose proof (inv_unit _ Hs). lra.
Qed.

(** [probability_from_elos] through the gap of the adjusted ratings. *)
Lemma probability_from_elos_gap : forall elo_a elo_b man_is_home,
  let x := adjusted_gap elo_a elo_b man_is_home in
  let d := draw_gap rnd x in
  let p := expected_gap rnd pow10 x in
  let pw := fmul rnd (fsub rnd 1 d) p in
  let pl := fmul rnd (fsub rnd 1 d) (fsub rnd 1 p) in
  let rem := fsub rnd 1 (fadd rnd (fadd rnd pw d) pl) in
  probability_from_elos rnd pow10 elo_a elo_b man_is_home =
  (pw, d, if Rlt_dec (flit rnd (1 / 10 ^ 6)) (Rabs rem) then fadd rnd pl rem else pl).
Proof.
  intros elo_a elo_b man_is_home.
  unfold probability_from_elos, elo_expected, draw_of, adjusted_gap,
    draw_gap, expected_gap.
  destruct man_is_home; cbv zeta.
  - replace (elo_b - (elo_a + HOME_ADV))%Z with (- (elo_a + HOME_ADV - elo_b))%Z by lia.
    reflexivity.
  - replace (elo_b + HOME_ADV - elo_a)%Z with (- (elo_a - (elo_b + HOME_ADV)))%Z by lia.
    reflexivity.
Qed.

(** The three float values of a gap: each lies between 0 and 1, their sum
    is within four unit roundoffs of 1, and the remainder the program
    computes is at most nine unit roundoffs. *)
Lemma gap_values : forall x,
  let d := draw_gap rnd x in
  let pw := win_gap rnd pow10 x in
  let pl := loss_gap rnd pow10 x in
  (0 <= pw <= 1 /\ 0 <= d <= 1 /\ 0 <= pl <= 1)
  /\ - (4 * u) <= pw + d + pl - 1 <= 4 * u
  /\ Rabs (fsub rnd 1 (fadd rnd (fadd rnd pw d) pl)) <= 9 * u.
Proof.
  intro x. cbv zeta. unfold win_gap, loss_gap.
  pose proof u_small as Hu.
  pose proof (draw_gap_bounds x) as Hd.
  pose proof (expected_gap_unit x) as Hp.
  set (d := draw_gap rnd x) in *.
  set (p := expected_gap rnd pow10 x) in *.
  unfold fmul, fsub, fadd.
  pose proof (rnd_near (1 - d) ltac:(lra)) as Ha.
  pose proof (rnd_unit (1 - d) ltac:(lra)) as Ha1.
  set (a := rnd (1 - d)) in *.
  pose proof (rnd_near (1 - p) ltac:(lra)) as Hq.
  pose proof (rnd_unit (1 - p) ltac:(lra)) as Hq1.
  set (q := rnd (1 - p)) in *.
  assert (Hap : 0 <= a * p <= 1) by nra.
  assert (Haq : 0 <= a * q <= 1) by nra.
  pose proof (rnd_near (a * p) ltac:(lra)) as Hw.
  pose proof (rnd_unit (a * p) Hap) as Hw1.
  set (pw := rnd (a * p)) in *.
  pose proof (rnd_near (a * q) ltac:(lra)) as Hl.
  pose proof (rnd_unit (a * q) Haq) as Hl1.
  set (pl := rnd (a * q)) in *.
  assert (Hsum : - (4 * u) <= pw + d + pl - 1 <= 4 * u) by nra.
  pose proof (rnd_within 2 (pw + d) ltac:(lra) ltac:(lra)) as Hs2.
  set (s2 := rnd (pw + d)) in *.
  pose proof (rnd_within 2 (s2 + pl) ltac:(lra) ltac:(lra)) as Hs3.
  set (s3 := rnd (s2 + pl)) in *.
  pose proof (rnd_near (1 - s3) ltac:(lra)) as Hrem.
  split; [lra|]. split; [exact Hsum|]. apply Rabs_le. lra.
Qed.

(** The correction of [p_loss] is never applied: [probability_from_elos]
    returns the three float values of the gap. *)
Lemma probability_from_elos_triple : forall elo_a elo_b man_is_home,
  let x := adjusted_gap elo_a elo_b man_is_home in
  probability_from_elos rnd pow10 elo_a elo_b man_is_home =
  (win_gap rnd pow10 x, draw_gap rnd x, loss_gap rnd pow10 x).
Proof.
  intros elo_a elo_b man_is_home x.
  rewrite probability_from_elos_gap. fold x.
  destruct (gap_values x) as (_ & _ & Hrem). cbv zeta in Hrem.
  fold (win_gap rnd pow10 x). fold (loss_gap rnd pow10 x).
  pose proof u_small as Hu.
  pose proof (rnd_near (1 / 10 ^ 6) ltac:(lra)) as Hc6. unfold flit.
  destruct (Rlt_dec _ _) as [Hbig|Hok]; [exfalso; lra|reflexivity].
Qed.

(** C3. Under rounding to nearest, for every pair of ratings and either
    venue, each of the three probabilities returned lies between 0 and 1
    and they sum to 1 within 1e-6. *)
Theorem probability_from_elos_distribution : forall elo_a elo_b man_is_home,
  let t := probability_from_elos rnd pow10 elo_a elo_b man_is_home in
  Rabs (p_win t + p_draw t + p_loss t - 1) <= 1 / 10 ^ 6
  /\ 0 <= p_win t <= 1
  /\ 0 <= p_draw t <= 1
  /\ 0 <= p_loss t <= 1.
Proof.
  intros elo_a elo_b man_is_home. cbv zeta.
  rewrite probability_from_elos_triple.
  destruct (gap_values (adjusted_gap elo_a elo_b man_is_home)) as (Hb & Hs & _).
  cbv zeta in Hb, Hs. pose proof u_small as Hu.
  unfold p_win, p_draw, p_loss. cbn [fst snd].
  split; [apply Rabs_le; lra|exact Hb].
Qed.

End Rounded.

Section Accurate.

Variable rnd : R -> R.
Variable pow10 : R -> R.
Hypothesis Hrnd : rounds_to_nearest rnd.
Hypothesis Hpow : computes_pow10 pow10.

Let u := unit_roundoff.

Let mono := rnd_mono rnd Hrnd.
Let near := rnd_near rnd Hrnd.
Let within := rnd_within rnd Hrnd.
Let unit := rnd_unit rnd Hrnd.

Lemma pow10_nonneg' : forall x, 0 <= pow10 x.
Proof. apply Hpow. Qed.

(** The expected score grows with the gap. *)
Lemma expected_gap_mono : forall x y, (x <= y)%Z ->
  expected_gap rnd pow10 x <= expected_gap rnd pow10 y.
Proof.
  intros x y H. unfold expected_gap, fdiv, fadd, of_int.
  pose proof Hpow as (Hn & Hm & _). pose proof Hrnd as (_ & _ & H1 & _).
  assert (Ht : rnd (rnd (IZR (- y)) / 400) <= rnd (rnd (IZR (- x)) / 400)).
  { apply mono. assert (rnd (IZR (- y)) <= rnd (IZR (- x))).
    { apply mono, IZR_le. lia. }
    lra. }
  apply Hm in Ht.
  set (wx := pow10 (rnd (rnd (IZR (- x)) / 400))) in *.
  set (wy := pow10 (rnd (rnd (IZR (- y)) / 400))) in *.
  assert (Hsy : 1 <= rnd (1 + wy)).
  { rewrite <- H1. apply mono.
    assert (0 <= wy) by apply Hn. lra. }
  assert (Hs : rnd (1 + wy) <= rnd (1 + wx)) by (apply mono; lra).
  apply mono. unfold Rdiv. rewrite !Rmult_1_l.
  apply Rinv_le_contravar; lra.
Qed.

(** The draw probability falls as the gap widens. *)
Lemma draw_gap_anti : forall x y, (Z.abs x <= Z.abs y)%Z ->
  draw_gap rnd y <= draw_gap rnd x.
Proof.
  intros x y H. unfold draw_gap, fsub, fdiv, of_int, flit.
  apply Rle_max_compat_l. apply mono.
  assert (rnd (rnd (IZR (Z.abs x)) / 2000) <= rnd (rnd (IZR (Z.abs y)) / 2000)).
  { apply mono. assert (rnd (IZR (Z.abs x)) <= rnd (IZR (Z.abs y))).
    { apply mono, IZR_le. exact H. }
    lra. }
  lra.
Qed.

(** Where both factors grow, the win probability grows. *)
Lemma win_gap_mono_factors : forall x y,
  draw_gap rnd y <= draw_gap rnd x ->
  expected_gap rnd pow10 x <= expected_gap rnd pow10 y ->
  win_gap rnd pow10 x <= win_gap rnd pow10 y.
Proof.
  intros x y Hd He. unfold win_gap, fmul, fsub.
  pose proof (draw_gap_bounds rnd Hrnd x) as Bx.
  pose proof (draw_gap_bounds rnd Hrnd y) as By.
  pose proof (expected_gap_unit rnd pow10 Hrnd pow10_nonneg' x) as Ux.
  pose proof (expected_gap_unit rnd pow10 Hrnd pow10_nonneg' y) as Uy.
  pose proof unit_roundoff_small as Hu.
  pose proof (unit (1 - draw_gap rnd x) ltac:(lra)) as Ax.
  pose proof (unit (1 - draw_gap rnd y) ltac:(lra)) as Ay.
  assert (Ha : rnd (1 - draw_gap rnd x) <= rnd (1 - draw_gap rnd y))
    by (apply mono; lra).
  apply mono. nra.
Qed.

(** From a gap of 262 points on the draw probability is the floor. *)
Lemma draw_gap_floor : forall x, (262 <= Z.abs x)%Z ->
  draw_gap rnd x = flit rnd (1 / 10).
Proof.
  intros x H. pose proof unit_roundoff_small as Hu. fold u in Hu.
  assert (E : draw_gap rnd x <= draw_gap rnd 262) by (apply draw_gap_anti; lia).
  assert (F : draw_gap rnd 262 = flit rnd (1 / 10)).
  { unfold draw_gap, fsub, fdiv, of_int, flit. apply Rmax_left.
    change (Z.abs 262) with 262%Z.
    pose proof (within 262 262 ltac:(lra) ltac:(lra)) as H0. fold u in H0.
    pose proof (near (rnd 262 / 2000) ltac:(lra)) as H1. fold u in H1.
    pose proof (near (23 / 100) ltac:(lra)) as H2. fold u in H2.
    pose proof (near (rnd (23 / 100) - rnd (rnd 262 / 2000)) ltac:(lra)) as H3.
    fold u in H3.
    pose proof (near (1 / 10) ltac:(lra)) as H4. fold u in H4.
    lra. }
  apply Rle_antisym; [lra|]. unfold draw_gap. apply Rmax_l.
Qed.

(** The float draw probability is within four unit roundoffs of [Dx]. *)
Lemma draw_gap_close : forall x, (Z.abs x <= 400)%Z ->
  Rabs (draw_gap rnd x - Dx x) <= 4 * u.
Proof.
  intros x H. pose proof unit_roundoff_small as Hu. fold u in Hu.
  unfold draw_gap, Dx, fsub, fdiv, of_int, flit.
  assert (Hg : 0 <= IZR (Z.abs x) <= 400).
  { split; [apply IZR_le; lia|apply IZR_le; exact H]. }
  set (g := IZR (Z.abs x)) in *.
  pose proof (within 400 g ltac:(lra) ltac:(lra)) as H0. fold u in H0.
  pose proof (near (rnd g / 2000) ltac:(lra)) as H1. fold u in H1.
  pose proof (near (23 / 100) ltac:(lra)) as H2. fold u in H2.
  pose proof (near (rnd (23 / 100) - rnd (rnd g / 2000)) ltac:(lra)) as H3.
  fold u in H3.
  pose proof (near (1 / 10) ltac:(lra)) as H4. fold u in H4.
  apply Rabs_le. unfold Rmax.
  destruct (Rle_dec (rnd (1 / 10)) (rnd (rnd (23 / 100) - rnd (rnd g / 2000))));
    destruct (Rle_dec (1 / 10) (23 / 100 - g / 2000)); lra.
Qed.

(** The float expected score is within 2e-9 of [Ex]. *)
Lemma expected_gap_close : forall x, (Z.abs x <= 400)%Z ->
  Rabs (expected_gap rnd pow10 x - Ex x) <= 2 / 10 ^ 9.
Proof.
  intros x H. pose proof unit_roundoff_small as Hu. fold u in Hu.
  pose proof Hpow as (Hn & _ & Hacc). pose proof Hrnd as (_ & _ & R1 & _).
  unfold expected_gap, fdiv, fadd, of_int.
  assert (He : -400 <= IZR (- x) <= 400).
  { split; [apply (IZR_le (-400))|apply (IZR_le _ 400)]; lia. }
  set (e := IZR (- x)) in *.
  pose proof (within 400 e ltac:(lra) ltac:(lra)) as H0. fold u in H0.
  pose proof (within 2 (rnd e / 400) ltac:(lra) ltac:(lra)) as H1. fold u in H1.
  set (t := rnd (rnd e / 400)) in *.
  assert (Ht : -2 <= t <= 2) by lra.
  pose proof (Hacc t Ht) as Hw. apply Rabs_le_both in Hw.
  pose proof (Rpower_10_lipschitz t (e / 400) Ht ltac:(lra)) as Hl.
  assert (Hte : Rabs (t - e / 400) <= 3 * u) by (apply Rabs_le; lra).
  apply Rabs_le_both in Hl.
  assert (HG : Rpower 10 (e / 400) = Gx x) by reflexivity.
  rewrite HG in Hl.
  pose proof (Gx_pos x) as Gp.
  assert (Gle : Gx x <= 10).
  { rewrite <- Rpower_10_1. unfold Gx. apply Rpower_10_mono. fold e. lra. }
  set (w := pow10 t) in *.
  assert (Hw0 : 0 <= w) by apply Hn.
  pose proof (within 12 (1 + w) ltac:(lra) ltac:(lra)) as H2. fold u in H2.
  set (s := rnd (1 + w)) in *.
  assert (Hs1 : 1 <= s).
  { unfold s. rewrite <- R1. apply mono. lra. }
  pose proof (inv_unit s Hs1) as Hr.
  pose proof (near (1 / s) ltac:(lra)) as H3. fold u in H3.
  pose proof (Ex_eqn x) as Ee. pose proof (Ex_unit x) as Eu.
  assert (Er : 1 / s * s = 1) by (field; lra).
  set (r := 1 / s) in *. set (E := Ex x) in *.
  (* r - E = r * E * (1 + G - s) *)
  assert (D : r - E = r * E * (1 + Gx x - s)) by nra.
  assert (B : - (15 / 10 ^ 10) <= 1 + Gx x - s <= 15 / 10 ^ 10) by lra.
  assert (P : 0 <= r * E <= 1) by nra.
  pose proof (scaled_small (r * E) (1 + Gx x - s) (15 / 10 ^ 10) P B) as C.
  rewrite <- D in C.
  apply Rabs_le. lra.
Qed.

(** The float win and loss probabilities are within 3e-9 of the exact ones. *)
Lemma win_loss_gap_close : forall x, (Z.abs x <= 400)%Z ->
  Rabs (win_gap rnd pow10 x - Wx x) <= 3 / 10 ^ 9
  /\ Rabs (loss_gap rnd pow10 x - Lx x) <= 3 / 10 ^ 9.
Proof.
  intros x H. pose proof unit_roundoff_small as Hu. fold u in Hu.
  pose proof (draw_gap_close x H) as Hd. apply Rabs_le_both in Hd.
  pose proof (expected_gap_close x H) as He. apply Rabs_le_both in He.
  pose proof (Dx_bounds x) as Bd. pose proof (Ex_unit x) as Be.
  pose proof (expected_gap_unit rnd pow10 Hrnd pow10_nonneg' x) as Bp.
  unfold win_gap, loss_gap, Wx, Lx, fmul, fsub.
  set (d := draw_gap rnd x) in *. set (p := expected_gap rnd pow10 x) in *.
  set (D := Dx x) in *. set (E := Ex x) in *.
  pose proof (near (1 - d) ltac:(lra)) as Ha. fold u in Ha.
  pose proof (unit (1 - d) ltac:(lra)) as Ha1.
  set (a := rnd (1 - d)) in *.
  pose proof (near (1 - p) ltac:(lra)) as Hq. fold u in Hq.
  pose proof (unit (1 - p) ltac:(lra)) as Hq1.
  set (q := rnd (1 - p)) in *.
  assert (Hap : 0 <= a * p <= 1) by nra.
  assert (Haq : 0 <= a * q <= 1) by nra.
  pose proof (near (a * p) ltac:(lra)) as Hw. fold u in Hw.
  pose proof (near (a * q) ltac:(lra)) as Hl. fold u in Hl.
  (* a * p - (1 - D) * E = a * (p - E) + (a - (1 - D)) * E *)
  pose proof (scaled_small a (p - E) (2 / 10 ^ 9) Ha1 ltac:(lra)) as S1.
  pose proof (scaled_small E (a - (1 - D)) (5 * u) ltac:(lra) ltac:(lra)) as S2.
  pose proof (scaled_small a (q - (1 - E)) (21 / 10 ^ 10) Ha1 ltac:(lra)) as S3.
  pose proof (scaled_small (1 - E) (a - (1 - D)) (5 * u) ltac:(lra) ltac:(lra)) as S4.
  split; apply Rabs_le; split; lra.
Qed.

(** One rating point more never lowers the float win probability. *)
Lemma win_gap_step : forall x, win_gap rnd pow10 x <= win_gap rnd pow10 (x + 1).
Proof.
  intro x.
  destruct (Z_le_gt_dec 0 x) as [H0|H0].
  { apply win_gap_mono_factors.
    - apply draw_gap_anti. lia.
    - apply expected_gap_mono. lia. }
  destruct (Z_le_gt_dec x (-264)) as [H1|H1].
  { apply win_gap_mono_factors.
    - rewrite !draw_gap_floor by lia. lra.
    - apply expected_gap_mono. lia. }
  pose proof (win_loss_gap_close x ltac:(lia)) as [Cx _].
  pose proof (win_loss_gap_close (x + 1) ltac:(lia)) as [Cy _].
  apply Rabs_le_both in Cx, Cy.
  pose proof (Wx_step_below x ltac:(lia)) as S.
  pose proof (Ex_lower (x + 1) ltac:(lia)) as L.
  lra.
Qed.

Lemma win_gap_mono : forall x y, (x <= y)%Z ->
  win_gap rnd pow10 x <= win_gap rnd pow10 y.
Proof.
  intros x y H. replace y with (x + Z.of_nat (Z.to_nat (y - x)))%Z by lia.
  induction (Z.to_nat (y - x)) as [|n IH].
  - rewrite Z.add_0_r. lra.
  - replace (x + Z.of_nat (S n))%Z with (x + Z.of_nat n + 1)%Z by lia.
    eapply Rle_trans; [exact IH|apply win_gap_step].
Qed.

(** C4. With the opponent's rating and the venue fixed, a higher rating
    never gives a lower win probability. *)
Theorem p_win_monotone : forall elo_a elo_a' elo_b man_is_home,
  (elo_a <= elo_a')%Z ->
  p_win (probability_from_elos rnd pow10 elo_a elo_b man_is_home)
  <= p_win (probability_from_elos rnd pow10 elo_a' elo_b man_is_home).
Proof.
  intros elo_a elo_a' elo_b man_is_home H.
  rewrite !(probability_from_elos_triple rnd pow10 Hrnd pow10_nonneg').
  unfold p_win. cbn [fst]. apply win_gap_mono.
  unfold adjusted_gap. destruct man_is_home; lia.
Qed.

(** C1, amended. For ratings 1700 and 1500 at home the adjusted ratings
    are 1800 and 1500; the reduced draw probability 0.23 - 300/2000 = 0.08
    is under the floor, so the draw probability is the floor, 0.10; the win
    probability is about 0.764 (0.90 times 0.849) and the loss probability
    about 0.136. *)
Theorem probability_from_elos_example :
  let t := probability_from_elos rnd pow10 1700 1500 true in
  ((1700 + HOME_ADV)%Z = 1800%Z /\ adjusted_gap 1700 1500 true = (1800 - 1500)%Z)
  /\ (p_draw t = flit rnd (1 / 10) /\ Rabs (p_draw t - 1 / 10) <= unit_roundoff)
  /\ 8489 / 10000 < expected_gap rnd pow10 (1800 - 1500) < 8491 / 10000
  /\ 7640 / 10000 < p_win t < 7642 / 10000
  /\ 1358 / 10000 < p_loss t < 1360 / 10000.
Proof.
  cbv zeta. rewrite (probability_from_elos_triple rnd pow10 Hrnd pow10_nonneg').
  change (adjusted_gap 1700 1500 true) with 300%Z.
  change (1800 - 1500)%Z with 300%Z.
  unfold p_win, p_draw, p_loss. cbn [fst snd].
  pose proof unit_roundoff_small as Hu. fold u in Hu.
  split; [split; reflexivity|].
  rewrite draw_gap_floor by (cbn; lia).
  pose proof (near (1 / 10) ltac:(lra)) as H10. fold u in H10.
  split; [split; [reflexivity|unfold flit; apply Rabs_le; fold u; lra]|].
  pose proof (win_loss_gap_close 300 ltac:(cbn; lia)) as [Cw Cl].
  pose proof (expected_gap_close 300 ltac:(cbn; lia)) as Ce.
  apply Rabs_le_both in Cw, Cl, Ce.
  assert (HD : Dx 300 = 1 / 10).
  { unfold Dx. change (Z.abs 300) with 300%Z. apply Rmax_left. lra. }
  pose proof Rpower_10_three_quarters as T.
  assert (HG : Gx 300 = Rpower 10 (- 3 / 4)).
  { unfold Gx. f_equal. change (- (300))%Z with (-300)%Z. lra. }
  pose proof (Ex_eqn 300) as Ee. pose proof (Ex_unit 300) as Eu.
  rewrite HG in Ee.
  unfold Wx, Lx in *. rewrite HD in *.
  set (E := Ex 300) in *. set (g := Rpower 10 (- 3 / 4)) in *.
  assert (84896 / 100000 < E < 84905 / 100000) by nra.
  lra.
Qed.

End Accurate.

(* ================================================================== *)
(** * The outcome model: instances *)

Lemma exact_pow10_nonneg : forall x, 0 <= exact_pow10 x.
Proof. apply exact_computes_pow10. Qed.

(** In exact arithmetic the draw probability of the example is the floor
    0.10, not 0.08, and the win probability stays below 0.77. *)
Lemma example_draw_is_the_floor :
  p_draw (probability_from_elos exact exact_pow10 1700 1500 true) = 1 / 10
  /\ p_draw (probability_from_elos exact exact_pow10 1700 1500 true) <> 8 / 100
  /\ p_win (probability_from_elos exact exact_pow10 1700 1500 true) < 77 / 100.
Proof.
  rewrite (probability_from_elos_triple exact exact_pow10
             exact_rounds_to_nearest exact_pow10_nonneg).
  change (adjusted_gap 1700 1500 true) with 300%Z.
  unfold p_draw, p_win. cbn [fst snd].
  rewrite (draw_gap_floor exact exact_rounds_to_nearest) by (cbn; lia).
  split; [reflexivity|]. split; [unfold flit, exact; lra|].
  pose proof (win_loss_gap_close exact exact_pow10 exact_rounds_to_nearest
                exact_computes_pow10 300 ltac:(cbn; lia)) as [Cw _].
  apply Rabs_le_both in Cw.
  assert (HD : Dx 300 = 1 / 10).
  { unfold Dx. change (Z.abs 300) with 300%Z. apply Rmax_left. lra. }
  pose proof Rpower_10_three_quarters as T.
  assert (HG : Gx 300 = Rpower 10 (- 3 / 4)).
  { unfold Gx. f_equal. change (- (300))%Z with (-300)%Z. lra. }
  pose proof (Ex_eqn 300) as Ee. pose proof (Ex_unit 300) as Eu.
  rewrite HG in Ee.
  unfold Wx in Cw. rewrite HD in Cw.
  set (E := Ex 300) in *. set (g := Rpower 10 (- 3 / 4)) in *.
  assert (E < 8491 / 10000) by nra.
  lra.
Qed.

Lemma probability_from_elos_example_witness :
  p_draw (probability_from_elos exact exact_pow10 1700 1500 true) = flit exact (1 / 10)
  /\ 7640 / 10000 < p_win (probability_from_elos exact exact_pow10 1700 1500 true)
     < 7642 / 10000.
Proof.
  pose proof (probability_from_elos_example exact exact_pow10
                exact_rounds_to_nearest exact_computes_pow10) as H.
  cbv zeta in H. destruct H as (_ & (Hd & _) & _ & Hw & _).
  split; assumption.
Defined.

Lemma probability_from_elos_distribution_witness :
  Rabs (p_win (probability_from_elos exact exact_pow10 1500 1700 false)
        + p_draw (probability_from_elos exact exact_pow10 1500 1700 false)
        + p_loss (probability_from_elos exact exact_pow10 1500 1700 false) - 1)
  <= 1 / 10 ^ 6.
Proof.
  exact (proj1 (probability_from_elos_distribution exact exact_pow10
                  exact_rounds_to_nearest exact_pow10_nonneg 1500 1700 false)).
Defined.

Lemma p_win_monotone_witness :
  p_win (probability_from_elos exact exact_pow10 1500 1700 false)
  <= p_win (probability_from_elos exact exact_pow10 1501 1700 false).
Proof.
  apply (p_win_monotone exact exact_pow10 exact_rounds_to_nearest
           exact_computes_pow10 1500 1501 1700 false).
  lia.
Defined.

(* ================================================================== *)
(** * Further properties of the outcome model *)

Lemma Gx_opp : forall x, Gx (- x) * Gx x = 1.
Proof.
  intro x. unfold Gx. rewrite <- Rpower_plus.
  replace (IZR (- - x) / 400 + IZR (- x) / 400) with 0.
  - apply Rpower_10_0.
  - rewrite Z.opp_involutive, opp_IZR. lra.
Qed.

(** The expected scores of the two sides add up to one. *)
Lemma Ex_opp : forall x, Ex (- x) = 1 - Ex x.
Proof.
  intro x. pose proof (Gx_opp x) as G.
  pose proof (Ex_eqn x) as E1. pose proof (Ex_eqn (- x)) as E2.
  pose proof (Gx_pos x) as P1. pose proof (Gx_pos (- x)) as P2.
  pose proof (Ex_unit x) as U1. pose proof (Ex_unit (- x)) as U2.
  assert (H : Ex (- x) * (1 + Gx x) = Gx x) by nra.
  assert (K : (1 - Ex x) * (1 + Gx x) = Gx x) by nra.
  apply Rmult_eq_reg_r with (1 + Gx x); lra.
Qed.

Lemma Dx_opp : forall x, Dx (- x) = Dx x.
Proof. intro x. unfold Dx. rewrite Z.abs_opp. reflexivity. Qed.

Lemma Wx_Lx_opp : forall x, Wx x = Lx (- x).
Proof.
  intro x. unfold Wx, Lx. rewrite Dx_opp, Ex_opp. lra.
Qed.

(** Above level terms one rating point more lowers the exact loss
    probability by at least [Ex (- x) / 1000]. *)
Lemma Lx_step_above : forall x, (0 <= x)%Z -> Lx (x + 1) + Ex (- x) / 1000 <= Lx x.
Proof.
  intros x H.
  pose proof (Wx_step_below (- (x + 1)) ltac:(lia)) as S.
  replace (- (x + 1) + 1)%Z with (- x)%Z in S by lia.
  rewrite !Wx_Lx_opp, !Z.opp_involutive in S. lra.
Qed.

Lemma adjusted_gap_swap : forall elo_a elo_b man_is_home,
  adjusted_gap elo_b elo_a (negb man_is_home) = (- adjusted_gap elo_a elo_b man_is_home)%Z.
Proof.
  intros elo_a elo_b man_is_home. unfold adjusted_gap.
  destruct man_is_home; cbn [negb]; lia.
Qed.

Section OutcomeBounds.

Variable rnd : R -> R.
Variable pow10 : R -> R.
Hypothesis Hrnd : rounds_to_nearest rnd.
Hypothesis Hnonneg : forall x, 0 <= pow10 x.

(** The draw probability is never under the floor [0.10] and never above
    the baseline [0.23] by more than two unit roundoffs; from a gap of 262
    points between the adjusted ratings on it is the floor. *)
Theorem p_draw_floor_and_baseline : forall elo_a elo_b man_is_home,
  let t := probability_from_elos rnd pow10 elo_a elo_b man_is_home in
  flit rnd (1 / 10) <= p_draw t <= 23 / 100 + 2 * unit_roundoff
  /\ ((262 <= Z.abs (adjusted_gap elo_a elo_b man_is_home))%Z ->
      p_draw t = flit rnd (1 / 10)).
Proof.
  intros elo_a elo_b man_is_home. cbv zeta.
  rewrite (probability_from_elos_triple rnd pow10 Hrnd Hnonneg).
  unfold p_draw. cbn [fst snd]. split.
  - split.
    + unfold draw_gap. apply Rmax_l.
    + apply (draw_gap_bounds rnd Hrnd).
  - intro H. apply (draw_gap_floor rnd Hrnd). exact H.
Qed.

(** [elo_expected] is the expected score of the gap [a - b]. *)
Lemma elo_expected_gap : forall a b,
  elo_expected rnd pow10 a b = expected_gap rnd pow10 (a - b).
Proof.
  intros a b. unfold elo_expected, expected_gap.
  replace (b - a)%Z with (- (a - b))%Z by lia. reflexivity.
Qed.

End OutcomeBounds.

Section OutcomeOrder.

Variable rnd : R -> R.
Variable pow10 : R -> R.
Hypothesis Hrnd : rounds_to_nearest rnd.
Hypothesis Hpow : computes_pow10 pow10.

Let nonneg : forall x, 0 <= pow10 x := proj1 Hpow.

(** The expected scores of the two sides: each between 0 and 1, and for
    ratings at most 400 points apart their sum is within 4e-9 of 1. *)
Theorem elo_expected_zero_sum : forall a b,
  0 <= elo_expected rnd pow10 a b <= 1
  /\ ((Z.abs (a - b) <= 400)%Z ->
      Rabs (elo_expected rnd pow10 a b + elo_expected rnd pow10 b a - 1)
      <= 4 / 10 ^ 9).
Proof.
  intros a b. rewrite !elo_expected_gap. split.
  - apply (expected_gap_unit rnd pow10 Hrnd nonneg).
  - intro H.
    pose proof (expected_gap_close rnd pow10 Hrnd Hpow (a - b) H) as C1.
    pose proof (expected_gap_close rnd pow10 Hrnd Hpow (b - a) ltac:(lia)) as C2.
    apply Rabs_le_both in C1, C2.
    assert (EE : Ex (b - a) = 1 - Ex (a - b)).
    { replace (b - a)%Z with (- (a - b))%Z by lia. apply Ex_opp. }
    apply Rabs_le. lra.
Qed.

(** Playing at home never lowers the win probability. *)
Theorem p_win_home_advantage : forall elo_a elo_b,
  p_win (probability_from_elos rnd pow10 elo_a elo_b false)
  <= p_win (probability_from_elos rnd pow10 elo_a elo_b true).
Proof.
  intros elo_a elo_b.
  rewrite !(probability_from_elos_triple rnd pow10 Hrnd nonneg).
  unfold p_win. cbn [fst]. apply (win_gap_mono rnd pow10 Hrnd Hpow).
  unfold adjusted_gap, HOME_ADV. lia.
Qed.

(** A stronger opponent never raises the win probability. *)
Theorem p_win_antitone_in_opponent : forall elo_a elo_b elo_b' man_is_home,
  (elo_b <= elo_b')%Z ->
  p_win (probability_from_elos rnd pow10 elo_a elo_b' man_is_home)
  <= p_win (probability_from_elos rnd pow10 elo_a elo_b man_is_home).
Proof.
  intros elo_a elo_b elo_b' man_is_home H.
  rewrite !(probability_from_elos_triple rnd pow10 Hrnd nonneg).
  unfold p_win. cbn [fst]. apply (win_gap_mono rnd pow10 Hrnd Hpow).
  unfold adjusted_gap. destruct man_is_home; lia.
Qed.

(** Swapping the two sides (ratings and venue) swaps win and loss and
    keeps the draw probability: exactly for the draw, within 6e-9 for win
    and loss when the adjusted ratings are at most 400 points apart. *)
Theorem probability_from_elos_swap : forall elo_a elo_b man_is_home,
  let t := probability_from_elos rnd pow10 elo_a elo_b man_is_home in
  let s := probability_from_elos rnd pow10 elo_b elo_a (negb man_is_home) in
  p_draw s = p_draw t
  /\ ((Z.abs (adjusted_gap elo_a elo_b man_is_home) <= 400)%Z ->
      Rabs (p_win s - p_loss t) <= 6 / 10 ^ 9
      /\ Rabs (p_loss s - p_win t) <= 6 / 10 ^ 9).
Proof.
  intros elo_a elo_b man_is_home. cbv zeta.
  rewrite !(probability_from_elos_triple rnd pow10 Hrnd nonneg).
  rewrite adjusted_gap_swap.
  set (x := adjusted_gap elo_a elo_b man_is_home).
  unfold p_win, p_draw, p_loss. cbn [fst snd]. split.
  - unfold draw_gap. rewrite Z.abs_opp. reflexivity.
  - intro H.
    pose proof (win_loss_gap_close rnd pow10 Hrnd Hpow x H) as [Cw Cl].
    pose proof (win_loss_gap_close rnd pow10 Hrnd Hpow (- x) ltac:(lia)) as [Cw' Cl'].
    apply Rabs_le_both in Cw, Cl, Cw', Cl'.
    pose proof (Wx_Lx_opp x) as S1. pose proof (Wx_Lx_opp (- x)) as S2.
    rewrite Z.opp_involutive in S2.
    split; apply Rabs_le; lra.
Qed.

(** Where the draw probability does not fall and the expected score does
    not fall, the loss probability does not rise. *)
Lemma loss_gap_mono_factors : forall x y,
  draw_gap rnd x <= draw_gap rnd y ->
  expected_gap rnd pow10 x <= expected_gap rnd pow10 y ->
  loss_gap rnd pow10 y <= loss_gap rnd pow10 x.
Proof.
  intros x y Hd He. unfold loss_gap, fmul, fsub.
  pose proof (draw_gap_bounds rnd Hrnd x) as Bx.
  pose proof (draw_gap_bounds rnd Hrnd y) as By.
  pose proof (expected_gap_unit rnd pow10 Hrnd nonneg x) as Ux.
  pose proof (expected_gap_unit rnd pow10 Hrnd nonneg y) as Uy.
  pose proof unit_roundoff_small as Hu.
  pose proof (rnd_unit rnd Hrnd (1 - draw_gap rnd x) ltac:(lra)) as Ax.
  pose proof (rnd_unit rnd Hrnd (1 - draw_gap rnd y) ltac:(lra)) as Ay.
  pose proof (rnd_unit rnd Hrnd (1 - expected_gap rnd pow10 x) ltac:(lra)) as Qx.
  pose proof (rnd_unit rnd Hrnd (1 - expected_gap rnd pow10 y) ltac:(lra)) as Qy.
  assert (Ha : rnd (1 - draw_gap rnd y) <= rnd (1 - draw_gap rnd x))
    by (apply (rnd_mono rnd Hrnd); lra).
  assert (Hq : rnd (1 - expected_gap rnd pow10 y) <= rnd (1 - expected_gap rnd pow10 x))
    by (apply (rnd_mono rnd Hrnd); lra).
  apply (rnd_mono rnd Hrnd). nra.
Qed.

Lemma loss_gap_step : forall x, loss_gap rnd pow10 (x + 1) <= loss_gap rnd pow10 x.
Proof.
  intro x.
  destruct (Z_le_gt_dec x (-1)) as [H0|H0].
  { apply loss_gap_mono_factors.
    - apply (draw_gap_anti rnd Hrnd). lia.
    - apply (expected_gap_mono rnd pow10 Hrnd Hpow). lia. }
  destruct (Z_le_gt_dec 263 x) as [H1|H1].
  { apply loss_gap_mono_factors.
    - rewrite !(draw_gap_floor rnd Hrnd) by lia. lra.
    - apply (expected_gap_mono rnd pow10 Hrnd Hpow). lia. }
  pose proof (win_loss_gap_close rnd pow10 Hrnd Hpow x ltac:(lia)) as [_ Cx].
  pose proof (win_loss_gap_close rnd pow10 Hrnd Hpow (x + 1) ltac:(lia)) as [_ Cy].
  apply Rabs_le_both in Cx, Cy.
  pose proof (Lx_step_above x ltac:(lia)) as S.
  pose proof (Ex_lower (- x) ltac:(lia)) as L.
  lra.
Qed.

Lemma loss_gap_antitone : forall x y, (x <= y)%Z ->
  loss_gap rnd pow10 y <= loss_gap rnd pow10 x.
Proof.
  intros x y H. replace y with (x + Z.of_nat (Z.to_nat (y - x)))%Z by lia.
  induction (Z.to_nat (y - x)) as [|n IH].
  - rewrite Z.add_0_r. lra.
  - replace (x + Z.of_nat (S n))%Z with (x + Z.of_nat n + 1)%Z by lia.
    eapply Rle_trans; [apply loss_gap_step|exact IH].
Qed.

(** With the opponent's rating and the venue fixed, a higher rating never
    gives a higher loss probability. *)
Theorem p_loss_antitone : forall elo_a elo_a' elo_b man_is_home,
  (elo_a <= elo_a')%Z ->
  p_loss (probability_from_elos rnd pow10 elo_a' elo_b man_is_home)
  <= p_loss (probability_from_elos rnd pow10 elo_a elo_b man_is_home).
Proof.
  intros elo_a elo_a' elo_b man_is_home H.
  rewrite !(probability_from_elos_triple rnd pow10 Hrnd nonneg).
  unfold p_loss. cbn [snd]. apply loss_gap_antitone.
  unfold adjusted_gap. destruct man_is_home; lia.
Qed.

End OutcomeOrder.

Close Scope R_scope.

(* ================================================================== *)
(** * Further properties of [normalize] *)

Lemma filter_append : forall p s1 s2,
  Str.filter p (s1 ++ s2) = Str.filter p s1 ++ Str.filter p s2.
Proof.
  intros p s1 s2. induction s1 as [|c s1 IH]; cbn; [reflexivity|].
  rewrite IH. destruct (p c); reflexivity.
Qed.

Lemma lower_append : forall s1 s2,
  Str.lower (s1 ++ s2) = Str.lower s1 ++ Str.lower s2.
Proof.
  intros s1 s2. unfold Str.lower. induction s1 as [|c s1 IH]; cbn; [reflexivity|].
  rewrite IH. reflexivity.
Qed.

Lemma lower_char_idempotent : forall c, lower_char (lower_char c) = lower_char c.
Proof.
  intro c.
  pose proof (by_cases_on_ascii
                (fun c => Ascii.eqb (lower_char (lower_char c)) (lower_char c))
                (eq_refl true) c) as E.
  cbv beta in E. apply Ascii.eqb_eq. exact E.
Qed.

Lemma lower_idempotent : forall s, Str.lower (Str.lower s) = Str.lower s.
Proof.
  intro s. unfold Str.lower. induction s as [|c s IH]; cbn; [reflexivity|].
  rewrite lower_char_idempotent, IH. reflexivity.
Qed.

(** [normalize] works character by character and ignores case: the
    normalized name of a concatenation is the concatenation of the
    normalized names, and lowercasing first changes nothing. *)
Theorem normalize_concat_and_case : forall s1 s2,
  normalize (s1 ++ s2) = normalize s1 ++ normalize s2
  /\ normalize (Str.lower s1) = normalize s1.
Proof.
  intros s1 s2. split.
  - rewrite !normalize_filter, lower_append, filter_append. reflexivity.
  - rewrite !normalize_filter, lower_idempotent. reflexivity.
Qed.

Lemma dropped_not_kept : forall c, dropped c = true -> kept (lower_char c) = false.
Proof.
  intros c H.
  pose proof (by_cases_on_ascii
                (fun c => implb (dropped c) (negb (kept (lower_char c))))
                (eq_refl true) c) as E.
  cbv beta in E. rewrite H in E. cbn in E. apply negb_true_iff. exact E.
Qed.

(** A digit from 2 to 9, a whitespace character or a punctuation mark
    anywhere in a name does not show in its normalized name: two names
    that differ by such a character are the same to the resolver. *)
Theorem normalize_drops : forall c s1 s2,
  dropped c = true ->
  normalize (s1 ++ String c s2) = normalize (s1 ++ s2).
Proof.
  intros c s1 s2 H.
  rewrite !normalize_filter, !lower_append, !filter_append. f_equal.
  unfold Str.lower. cbn [Str.map Str.filter].
  rewrite (dropped_not_kept c H). reflexivity.
Qed.

Lemma normalize_drops_witness :
  normalize ("Schalke 0" ++ String "4" "") = normalize ("Schalke 0" ++ "")
  /\ normalize ("Schalke 0" ++ String "9" "") = normalize ("Schalke 0" ++ "").
Proof.
  split; apply normalize_drops; reflexivity.
Defined.

(* ================================================================== *)
(** * Further properties of the resolver and the index *)

Lemma hit_no_hit : forall target e, hit target e = false <-> no_hit target e.
Proof.
  intros target [[d h] n]. unfold hit, no_hit. cbn [snd]. split.
  - intro H. apply orb_false_iff in H as [H H3]. apply orb_false_iff in H as [H1 H2].
    apply String.eqb_neq in H1. auto.
  - intros (H1 & H2 & H3). apply String.eqb_neq in H1. rewrite H1, H2, H3. reflexivity.
Qed.

(** On a hit the loop returns at once. *)
Lemma scan_index_hit : forall ratio target d h n rest best,
  hit target (d, h, n) = true ->
  scan_index ratio target ((d, h, n) :: rest) best = (Some h, Some d).
Proof.
  intros ratio target d h n rest best H. unfold hit in H. cbn [snd] in H.
  cbn [scan_index].
  destruct (String.eqb n target); [reflexivity|]. cbn [orb] in H.
  rewrite H. reflexivity.
Qed.

(** Entries that are no hit only move [best]. *)
Lemma scan_index_prefix : forall ratio target pre best,
  Forall (no_hit target) pre ->
  exists best', forall rest,
    scan_index ratio target (pre ++ rest) best = scan_index ratio target rest best'.
Proof.
  intros ratio target pre. induction pre as [|[[d h] n] pre IH]; intros best Hhit.
  - exists best. reflexivity.
  - inversion Hhit as [|? ? Hh Hhit']; subst.
    destruct (Qltb (snd best) (ratio n target)) eqn:E.
    + destruct (IH (Some h, Some d, ratio n target) Hhit') as (b' & Heq).
      exists b'. intro rest.
      rewrite <- app_comm_cons, scan_index_no_hit, E by assumption. apply Heq.
    + destruct (IH best Hhit') as (b' & Heq).
      exists b'. intro rest.
      rewrite <- app_comm_cons, scan_index_no_hit, E by assumption. apply Heq.
Qed.

(** The first entry, in index order, whose normalized name equals the
    normalized query or is in a substring relation with it is returned,
    whatever the similarity ratios are and whatever entries follow it (an
    exact match further down included). *)
Theorem find_in_index_first_hit : forall ratio (pre : list entry) d h n post team,
  Forall (no_hit (normalize team)) pre ->
  hit (normalize team) (d, h, n) = true ->
  find_in_index ratio (pre ++ (d, h, n) :: post)%list team = (Some h, Some d).
Proof.
  intros ratio pre d h n post team Hpre Hhit. unfold find_in_index.
  destruct (scan_index_prefix ratio (normalize team) pre (None, None, 0%Q) Hpre)
    as (b' & Heq).
  rewrite Heq. apply scan_index_hit. exact Hhit.
Qed.

Lemma find_in_index_first_hit_witness :
  find_in_index ratio_060
    ([("Leeds United", "/LeedsUnited", "leedsunited")]
     ++ ("Manchester City", "/ManCity", "manchestercity")
     :: [("Manchester", "/Manchester", "manchester")])%list
    "Manchester"
  = (Some "/ManCity", Some "Manchester City").
Proof.
  apply find_in_index_first_hit; [no_hits|reflexivity].
Defined.

Lemma contains_empty : forall s, Str.contains "" s = true.
Proof. intro s. destruct s; reflexivity. Qed.

(** A query with no letter and no digit 0 or 1 in it normalizes to the
    empty string, which is a substring of every name: on a non-empty index
    the resolver then returns the first entry. *)
Theorem find_in_index_empty_query : forall ratio d h n rest team,
  normalize team = "" ->
  find_in_index ratio ((d, h, n) :: rest) team = (Some h, Some d).
Proof.
  intros ratio d h n rest team H. unfold find_in_index. rewrite H.
  apply scan_index_hit. unfold hit. cbn [snd].
  rewrite contains_empty, orb_true_r. reflexivity.
Qed.

Lemma find_in_index_empty_query_witness :
  find_in_index ratio_060 three_clubs "?? (23/24)" = (Some "/LeedsUnited", Some "Leeds United").
Proof.
  apply find_in_index_empty_query. reflexivity.
Defined.

Lemma scan_index_sound : forall ratio target (all index : list entry) best,
  incl index all ->
  (fst best = (None, None)
   \/ exists d h n, List.In (d, h, n) all /\ fst best = (Some h, Some d)) ->
  scan_index ratio target index best = (None, None)
  \/ exists d h n, List.In (d, h, n) all
                   /\ scan_index ratio target index best = (Some h, Some d).
Proof.
  intros ratio target all index.
  induction index as [|[[d h] n] index IH]; intros best Hincl Hb.
  - cbn [scan_index]. destruct (Qle_bool (65 # 100) (snd best)); [|left; reflexivity].
    destruct Hb as [Hb|(d & h & n & Hin & Hb)]; [left; exact Hb|].
    right. exists d, h, n. auto.
  - assert (Hin : List.In (d, h, n) all) by (apply Hincl; left; reflexivity).
    assert (Hincl' : incl index all) by (intros e He; apply Hincl; right; exact He).
    cbn [scan_index].
    destruct (String.eqb n target); [right; exists d, h, n; auto|].
    destruct (Str.contains target n || Str.contains n target);
      [right; exists d, h, n; auto|].
    destruct (Qltb (snd best) (ratio n target)).
    + apply IH; [exact Hincl'|]. right. exists d, h, n. auto.
    + apply IH; assumption.
Qed.

(** The resolver returns either (None, None) or the link and the display
    name of one entry of the index: never a link without its name, never a
    pair that is not in the index. *)
Theorem find_in_index_sound : forall ratio index team,
  find_in_index ratio index team = (None, None)
  \/ exists d h n, List.In (d, h, n) index
                   /\ find_in_index ratio index team = (Some h, Some d).
Proof.
  intros ratio index team. unfold find_in_index.
  apply scan_index_sound; [apply incl_refl|]. left. reflexivity.
Qed.

(** With a hit somewhere in the index the loop returns some entry. *)
Lemma scan_index_some_hit : forall ratio target index best,
  existsb (hit target) index = true ->
  exists h d, scan_index ratio target index best = (Some h, Some d).
Proof.
  intros ratio target index. induction index as [|[[d h] n] index IH]; intros best H.
  - discriminate H.
  - cbn [existsb] in H. destruct (hit target (d, h, n)) eqn:E.
    + exists h, d. apply scan_index_hit. exact E.
    + cbn [orb] in H. apply hit_no_hit in E.
      rewrite scan_index_no_hit by exact E.
      destruct (Qltb (snd best) (ratio n target)); apply IH; exact H.
Qed.

(** What [remove_duplicates] keeps: entries of [items] whose normalized
    names are new and pairwise different. *)
Lemma remove_duplicates_keeps : forall items seen,
  NoDup (List.map (fun e : entry => snd e) (remove_duplicates items seen))
  /\ forall e, List.In e (remove_duplicates items seen) ->
               List.In e items /\ ~ List.In (snd e) seen.
Proof.
  induction items as [|[[t h] n] items IH]; intro seen; cbn [remove_duplicates].
  - split; [constructor|intros e []].
  - unfold mem_string. destruct (existsb (String.eqb n) seen) eqn:Hm.
    + destruct (IH seen) as [Hnd Hin]. split; [exact Hnd|].
      intros e He. destruct (Hin e He). split; [right|]; assumption.
    + destruct (IH (n :: seen)) as [Hnd Hin]. split.
      * cbn [List.map snd]. constructor; [|exact Hnd].
        intro Hk. apply in_map_iff in Hk as (e & Hke & He).
        destruct (Hin e He) as [_ Hn]. apply Hn. left. symmetry. exact Hke.
      * intros e [<-|He].
        -- split; [left; reflexivity|]. cbn [snd]. intro Hk.
           assert (existsb (String.eqb n) seen = true).
           { apply existsb_exists. exists n. split; [exact Hk|apply String.eqb_refl]. }
           congruence.
        -- destruct (Hin e He) as [Hr Hn]. split; [right; exact Hr|].
           intro Hk. apply Hn. right. exact Hk.
Qed.

(** What [remove_duplicates] loses: nothing but repetitions. *)
Lemma remove_duplicates_complete : forall items seen e,
  List.In e items ->
  List.In (snd e) seen
  \/ List.In (snd e) (List.map (fun e : entry => snd e) (remove_duplicates items seen)).
Proof.
  induction items as [|[[t h] n] items IH]; intros seen e He; [destruct He|].
  cbn [remove_duplicates]. unfold mem_string.
  destruct (existsb (String.eqb n) seen) eqn:Hm.
  - destruct He as [<-|He]; [|apply IH; exact He].
    left. cbn [snd]. apply existsb_exists in Hm as (x & Hx & Ex).
    apply String.eqb_eq in Ex. subst x. exact Hx.
  - cbn [List.map snd]. destruct He as [<-|He]; [right; left; reflexivity|].
    destruct (IH (n :: seen) e He) as [[<-|Hs]|Hr].
    + right. left. reflexivity.
    + left. exact Hs.
    + right. right. exact Hr.
Qed.

(** The index [build_clubelo_index] returns: its normalized names are
    pairwise different, and each entry is an anchor of the listing page
    that passes the link filter (non-empty text of more than two
    characters, a link that starts with a slash and is shorter than 60),
    with the normalized text as its third component. *)
Theorem build_clubelo_index_entries : forall w index,
  build_clubelo_index w = Ok index ->
  NoDup (List.map (fun e : entry => snd e) index)
  /\ forall t h n, List.In (t, h, n) index ->
       n = normalize t
       /\ club_link (t, h) = true
       /\ exists txt anchors,
            fetch_page_text w CLUBELO_ALL_URL = Ok txt
            /\ soup_anchors w txt = Ok anchors
            /\ List.In (t, h) anchors.
Proof.
  intros w index. unfold build_clubelo_index.
  destruct (fetch_page_text w CLUBELO_ALL_URL) as [txt|e] eqn:Hf; [|discriminate].
  cbn [bind].
  destruct (soup_anchors w txt) as [anchors|e] eqn:Ha; [|discriminate].
  cbn [bind]. intro H. injection H as <-.
  set (items := List.map (fun a => (fst a, snd a, normalize (fst a)))
                         (List.filter club_link anchors)).
  destruct (remove_duplicates_keeps items []) as [Hnd Hin].
  split; [exact Hnd|].
  intros t h n He. destruct (Hin _ He) as [Hi _].
  unfold items in Hi. apply in_map_iff in Hi as ([t' h'] & E & Hi).
  cbn [fst snd] in E. injection E as -> -> <-.
  apply filter_In in Hi as [Hi Hl].
  split; [reflexivity|]. split; [exact Hl|].
  exists txt, anchors. auto.
Qed.

Lemma build_clubelo_index_entries_witness :
  NoDup (List.map (fun e : entry => snd e) [("Leeds", "/Leeds", "leeds")]).
Proof.
  exact (proj1 (build_clubelo_index_entries (club_world "") _ eq_refl)).
Defined.

(** Index and resolver together: a name that stands on the listing page
    as the text of an anchor the filter admits is always resolved to some
    entry (its own, or an earlier one that is a hit for it). *)
Theorem listed_name_is_resolved : forall w txt anchors index t h,
  fetch_page_text w CLUBELO_ALL_URL = Ok txt ->
  soup_anchors w txt = Ok anchors ->
  build_clubelo_index w = Ok index ->
  List.In (t, h) anchors -> club_link (t, h) = true ->
  exists h' d',
    find_clubelo_href w t = Ok (Some h', Some d')
    /\ exists n', List.In (d', h', n') index.
Proof.
  intros w txt anchors index t h Hf Ha Hb Hin Hl.
  unfold find_clubelo_href. rewrite Hb. cbn [bind].
  assert (Hx : existsb (hit (normalize t)) index = true).
  { unfold build_clubelo_index in Hb. rewrite Hf in Hb. cbn [bind] in Hb.
    rewrite Ha in Hb. cbn [bind] in Hb. injection Hb as <-.
    set (items := List.map (fun a => (fst a, snd a, normalize (fst a)))
                           (List.filter club_link anchors)).
    assert (Hi : List.In (t, h, normalize t) items).
    { unfold items. apply in_map_iff. exists (t, h). split; [reflexivity|].
      apply filter_In. auto. }
    destruct (remove_duplicates_complete items [] _ Hi) as [[]|Hr].
    cbn [snd] in Hr. apply in_map_iff in Hr as ([[d' h'] n'] & E & He).
    cbn [snd] in E. subst n'.
    apply existsb_exists. exists (d', h', normalize t). split; [exact He|].
    unfold hit. cbn [snd]. rewrite String.eqb_refl. reflexivity. }
  destruct (scan_index_some_hit (seq_ratio w) (normalize t) index (None, None, 0%Q) Hx)
    as (h' & d' & Hs).
  exists h', d'. unfold find_in_index. rewrite Hs. split; [reflexivity|].
  destruct (find_in_index_sound (seq_ratio w) index t) as [Hn|(d & h0 & n & Hi & Hr)];
    unfold find_in_index in *; rewrite Hs in *; [discriminate|].
  injection Hr as -> ->. exists n. exact Hi.
Qed.

Lemma listed_name_is_resolved_witness :
  exists h' d',
    find_clubelo_href (club_world "") "Leeds" = Ok (Some h', Some d')
    /\ exists n', List.In (d', h', n') [("Leeds", "/Leeds", "leeds")].
Proof.
  apply (listed_name_is_resolved (club_world "") "" [("Leeds", "/Leeds")]
           [("Leeds", "/Leeds", "leeds")] "Leeds" "/Leeds");
    try reflexivity.
  left. reflexivity.
Defined.

(* ================================================================== *)
(** * Further properties of the fixture parser *)

Lemma scanned_weaken : forall lines bound st,
  scanned lines bound st -> scanned lines (S bound) st.
Proof.
  intros lines bound [cur fixtures] [Hd Hf]. split.
  - cbn [fst] in *. destruct cur as [d|]; [|exact I].
    destruct Hd as (j & Hj & Hn & Hm). exists j. split; [lia|auto].
  - intros f Hin. destruct (Hf f Hin) as (i & Hi & Hat). exists i. split; [lia|exact Hat].
Qed.

Lemma scan_step_scanned : forall lines i st,
  1 <= i -> scanned lines i st -> scanned lines (S i) (scan_step lines st i).
Proof.
  intros lines i [cur fixtures] Hi Hinv.
  pose proof (scanned_weaken _ _ _ Hinv) as Hw.
  unfold scan_step.
  destruct (nth_error lines i) as [ln|] eqn:Hln; [|exact Hw].
  destruct (matches date_re ln) eqn:Hdate.
  { destruct Hw as [_ Hf]. split; [|exact Hf].
    cbn [fst]. exists i. split; [lia|auto]. }
  destruct (is_versus ln) eqn:Hv; [|exact Hw].
  destruct ((1 <=? i) && (i + 1 <? List.length lines))%nat; [|exact Hw].
  destruct (nth_error lines (i - 1)) as [team_a|] eqn:Ha; [|exact Hw].
  destruct (nth_error lines (i + 1)) as [team_b|] eqn:Hb; [|exact Hw].
  destruct (first_time (tail_lines lines (i + 2))) as [tt ct] eqn:Hft.
  assert (Hdt : forall f, date_text f = match cur with Some d => d | None => "" end ->
            date_text f = ""
            \/ exists j, 1 <= j < i /\ nth_error lines j = Some (date_text f)
                         /\ matches date_re (date_text f) = true).
  { intros f E. destruct Hinv as [Hd _]. cbn [fst] in Hd.
    destruct cur as [d|]; [|left; exact E].
    right. rewrite E. exact Hd. }
  destruct Hw as [Hd Hf].
  destruct (mentions_united team_a) eqn:Hma.
  - split; [exact Hd|]. cbn [snd]. intros f Hin.
    apply in_app_or in Hin as [Hin|[<-|[]]]; [apply Hf; exact Hin|].
    exists i. split; [lia|].
    exists ln, team_a, team_b. rewrite Hma.
    split; [exact Hi|]. split; [exact Hln|]. split; [exact Hv|].
    split; [exact Ha|]. split; [exact Hb|].
    split; [split; reflexivity|].
    split; [cbn [time_text competition]; symmetry; exact Hft|].
    apply Hdt. reflexivity.
  - destruct (mentions_united team_b) eqn:Hmb; [|split; assumption].
    split; [exact Hd|]. cbn [snd]. intros f Hin.
    apply in_app_or in Hin as [Hin|[<-|[]]]; [apply Hf; exact Hin|].
    exists i. split; [lia|].
    exists ln, team_a, team_b. rewrite Hma.
    split; [exact Hi|]. split; [exact Hln|]. split; [exact Hv|].
    split; [exact Ha|]. split; [exact Hb|].
    split; [split; [exact Hmb|split; reflexivity]|].
    split; [cbn [time_text competition]; symmetry; exact Hft|].
    apply Hdt. reflexivity.
Qed.

Lemma fold_scan_scanned : forall lines n start st,
  1 <= start -> scanned lines start st ->
  scanned lines (start + n) (fold_left (scan_step lines) (seq start n) st).
Proof.
  intros lines n. induction n as [|n IH]; intros start st Hs Hinv.
  - rewrite Nat.add_0_r. exact Hinv.
  - cbn [seq fold_left]. replace (start + S n) with (S start + n) by lia.
    apply IH; [lia|]. apply scan_step_scanned; assumption.
Qed.

Lemma firstn_incl_list : forall (A : Type) n (l : list A) x,
  List.In x (firstn n l) -> List.In x l.
Proof.
  intros A n l x H. rewrite <- (firstn_skipn n l). apply in_or_app. left. exact H.
Qed.

Lemma unique_limit_incl : forall limit fixtures f,
  List.In f (unique_limit limit fixtures [] []) -> List.In f fixtures.
Proof.
  intros limit fixtures f H. rewrite unique_limit_first_occurrences in H.
  apply firstn_incl_list in H.
  destruct (first_occurrences_keys fixtures []) as [_ Hin].
  apply Hin. exact H.
Qed.

(** Each record returned comes from some versus line. *)
Lemma parse_lines_fixture_at : forall lines limit f,
  List.In f (parse_lines lines limit) ->
  exists i, fixture_at lines i f.
Proof.
  intros lines limit f H. unfold parse_lines in H.
  apply unique_limit_incl in H. unfold scan_lines in H.
  pose proof (fold_scan_scanned lines (List.length lines - 1) 1 (None, [])
                (le_n 1)) as Hinv.
  destruct Hinv as [_ Hf].
  - split; [exact I|intros g []].
  - destruct (Hf f H) as (i & _ & Hat). exists i. exact Hat.
Qed.

(** Every record the parser returns is read off a versus line of the page:
    the lines before and after it are the two teams, the team is at home
    exactly when team A mentions it (also when both sides do), the opponent
    is the other line, and the date is empty or a line that matches the
    date pattern and stands between the second line and the versus line. *)
Theorem parse_lines_records : forall lines limit f,
  List.In f (parse_lines lines limit) ->
  exists i, fixture_at lines i f.
Proof.
  exact parse_lines_fixture_at.
Qed.

Lemma parse_lines_records_witness :
  exists i, fixture_at leeds_lines i (leeds_fixture "").
Proof.
  apply (parse_lines_records leeds_lines 20). left. reflexivity.
Defined.

(** Without a versus token after the first line nothing is parsed. *)
Lemma fold_scan_no_versus : forall lines n start st,
  (forall i ln, start <= i -> nth_error lines i = Some ln -> is_versus ln = false) ->
  snd (fold_left (scan_step lines) (seq start n) st) = snd st.
Proof.
  intros lines n. induction n as [|n IH]; intros start [cur fixtures] H.
  - reflexivity.
  - cbn [seq fold_left]. rewrite IH.
    + unfold scan_step. destruct (nth_error lines start) as [ln|] eqn:Hln; [|reflexivity].
      destruct (matches date_re ln); [reflexivity|].
      rewrite (H start ln (le_n _) Hln). reflexivity.
    + intros i ln Hi. apply H. lia.
Qed.

(** A page on which no line after the first is one of the tokens [v],
    [vs], [V] yields no fixture, whatever the limit: an empty page, a page
    of a single line, a page that writes the fixtures on one line. *)
Theorem parse_lines_no_versus : forall lines limit,
  Forall (fun ln => is_versus ln = false) (tl lines) ->
  parse_lines lines limit = [].
Proof.
  intros lines limit H. unfold parse_lines, scan_lines.
  rewrite fold_scan_no_versus; [reflexivity|].
  intros i ln Hi Hn. rewrite Forall_forall in H. apply H.
  destruct lines as [|l0 rest]; [destruct i; discriminate Hn|].
  destruct i as [|i]; [lia|]. cbn [nth_error] in Hn. cbn [tl].
  eapply nth_error_In. exact Hn.
Qed.

Lemma parse_lines_no_versus_witness :
  parse_lines ["v"; "Manchester United v Leeds United"; "11:30 AM"] 20 = [].
Proof.
  apply parse_lines_no_versus. repeat constructor.
Defined.

Lemma first_occurrences_complete : forall fixtures seen f,
  List.In f fixtures ->
  List.In (key_of f) seen
  \/ List.In (key_of f) (List.map key_of (first_occurrences fixtures seen)).
Proof.
  induction fixtures as [|g rest IH]; intros seen f Hf; [destruct Hf|].
  cbn [first_occurrences]. destruct (mem_key (key_of g) seen) eqn:Hm.
  - destruct Hf as [<-|Hf]; [|apply IH; exact Hf].
    left. apply mem_key_In. exact Hm.
  - cbn [List.map]. destruct Hf as [<-|Hf]; [right; left; reflexivity|].
    destruct (IH (key_of g :: seen) f Hf) as [[<-|Hs]|Hr].
    + right. left. reflexivity.
    + left. exact Hs.
    + right. right. exact Hr.
Qed.

Lemma first_occurrences_length : forall fixtures seen,
  List.length (first_occurrences fixtures seen) <= List.length fixtures.
Proof.
  induction fixtures as [|g rest IH]; intro seen; cbn [first_occurrences List.length].
  - lia.
  - destruct (mem_key (key_of g) seen); cbn [List.length].
    + specialize (IH seen). lia.
    + specialize (IH (key_of g :: seen)). lia.
Qed.

(** For a limit of at least one the parser keeps its promise: at most
    [limit] records, pairwise different (date, opponent, venue) keys, the
    first occurrence of each key in the order of the page; and when the
    limit is not smaller than the number of fixtures found, no key of a
    fixture found is missing. *)
Theorem parse_lines_limit_positive : forall lines limit,
  (1 <= limit)%Z ->
  (Z.of_nat (List.length (parse_lines lines limit)) <= limit)%Z
  /\ NoDup (List.map key_of (parse_lines lines limit))
  /\ parse_lines lines limit
     = firstn (Z.to_nat limit) (first_occurrences (scan_lines lines) [])
  /\ ((Z.of_nat (List.length (scan_lines lines)) <= limit)%Z ->
      forall f, List.In f (scan_lines lines) ->
        List.In (key_of f) (List.map key_of (parse_lines lines limit))).
Proof.
  intros lines limit Hl. unfold parse_lines.
  destruct (unique_limit_positive limit (scan_lines lines) Hl) as (H1 & H2 & H3).
  cbv zeta in H1, H2, H3.
  split; [exact H1|]. split; [exact H2|]. split; [exact H3|].
  intros Hlen f Hf. rewrite H3.
  rewrite firstn_all2.
  - destruct (first_occurrences_complete (scan_lines lines) [] f Hf) as [[]|Hr].
    exact Hr.
  - pose proof (first_occurrences_length (scan_lines lines) []). lia.
Qed.

Lemma parse_lines_limit_positive_witness :
  (Z.of_nat (List.length (parse_lines ("Fixtures" :: leeds_lines) 1)) <= 1)%Z.
Proof.
  exact (proj1 (parse_lines_limit_positive ("Fixtures" :: leeds_lines) 1 ltac:(lia))).
Defined.

(** [lstrip] leaves the empty string or a string that starts with a
    character that is no whitespace. *)
Lemma lstrip_head : forall s,
  match Str.lstrip s with
  | "" => True
  | String c _ => space c = false
  end.
Proof.
  induction s as [|c s IH]; cbn [Str.lstrip]; [exact I|].
  destruct (space c) eqn:E; [exact IH|exact E].
Qed.

Lemma rstrip_idempotent : forall s, Str.rstrip (Str.rstrip s) = Str.rstrip s.
Proof.
  induction s as [|c s IH]; [reflexivity|].
  cbn [Str.rstrip]. destruct (Str.rstrip s) as [|d r] eqn:E.
  - destruct (space c) eqn:Ec; [reflexivity|].
    cbn [Str.rstrip]. rewrite Ec. reflexivity.
  - cbn [Str.rstrip] in *. rewrite IH. reflexivity.
Qed.

Lemma rstrip_keeps_head : forall c s,
  space c = false -> exists r, Str.rstrip (String c s) = String c r.
Proof.
  intros c s H. cbn [Str.rstrip]. destruct (Str.rstrip s) as [|d r].
  - rewrite H. exists "". reflexivity.
  - exists (String d r). reflexivity.
Qed.

(** [strip] is idempotent. *)
Lemma strip_idempotent : forall s, Str.strip (Str.strip s) = Str.strip s.
Proof.
  intro s. unfold Str.strip. pose proof (lstrip_head s) as H.
  destruct (Str.lstrip s) as [|c t] eqn:E; [reflexivity|].
  destruct (rstrip_keeps_head c t H) as (r & Hr).
  rewrite Hr. cbn [Str.lstrip]. rewrite H. rewrite <- Hr.
  apply rstrip_idempotent.
Qed.

(** The lines the parser works on are never empty and carry no whitespace
    at either end: stripping one again gives it back. *)
Theorem page_lines_trimmed : forall text,
  Forall (fun l => l <> "" /\ Str.strip l = l) (page_lines text).
Proof.
  intro text. unfold page_lines. apply Forall_forall. intros l H.
  apply in_map_iff in H as (ln & <- & H).
  apply filter_In in H as [_ H]. apply negb_true_iff, String.eqb_neq in H.
  split; [exact H|apply strip_idempotent].
Qed.

(** The continuation of a repetition is called on a suffix. *)
Lemma rep_greedy_suffix : forall (A : Type) (c : cls) s lo hi (k : string -> option A) x,
  rep_greedy c lo hi s k = Some x ->
  exists pre s', s = pre ++ s' /\ k s' = Some x.
Proof.
  intros A c s. induction s as [|a s IH]; intros lo hi k x H.
  - exists "", "". split; [reflexivity|].
    destruct hi as [[|n]|]; destruct lo; cbn in H; try discriminate; exact H.
  - assert (Stop : match lo with O => k (String a s) | S _ => None end = Some x ->
                   exists pre s', String a s = pre ++ s' /\ k s' = Some x).
    { intro E. exists "", (String a s). split; [reflexivity|].
      destruct lo; [exact E|discriminate]. }
    cbn [rep_greedy] in H.
    destruct hi as [[|n]|]; [apply Stop; exact H| |].
    + destruct (c a); [|apply Stop; exact H].
      destruct (rep_greedy c (Nat.pred lo) (option_map Nat.pred (Some (S n))) s k)
        as [y|] eqn:E; [|apply Stop; exact H].
      injection H as <-. destruct (IH _ _ _ _ E) as (pre & s' & -> & Hk).
      exists (String a pre), s'. auto.
    + destruct (c a); [|apply Stop; exact H].
      destruct (rep_greedy c (Nat.pred lo) (option_map Nat.pred None) s k)
        as [y|] eqn:E; [|apply Stop; exact H].
      injection H as <-. destruct (IH _ _ _ _ E) as (pre & s' & -> & Hk).
      exists (String a pre), s'. auto.
Qed.

Lemma append_assoc : forall a b c : string, (a ++ b) ++ c = a ++ (b ++ c).
Proof.
  induction a as [|x a IH]; intros b c; cbn; [reflexivity|]. rewrite IH. reflexivity.
Qed.

(** The continuation of a pattern is called on a suffix. *)
Lemma run_suffix : forall (A : Type) r s g (k : string -> option string -> option A) x,
  run r s g k = Some x ->
  exists pre s' g', s = pre ++ s' /\ k s' g' = Some x.
Proof.
  intros A r. induction r as [|c|r1 IH1 r2 IH2|r1 IH1 r2 IH2|c lo hi|r IH|];
    intros s g k x H; cbn [run] in H.
  - exists "", s, g. auto.
  - destruct s as [|a s]; [discriminate|]. destruct (c a); [|discriminate].
    exists (String a ""), s, g. auto.
  - destruct (IH1 _ _ _ _ H) as (p1 & s1 & g1 & -> & H1).
    destruct (IH2 _ _ _ _ H1) as (p2 & s2 & g2 & -> & H2).
    exists (p1 ++ p2), s2, g2. split; [symmetry; apply append_assoc|exact H2].
  - destruct (run r1 s g k) as [y|] eqn:E.
    + injection H as <-. apply (IH1 _ _ _ _ E).
    + apply (IH2 _ _ _ _ H).
  - destruct (rep_greedy_suffix _ _ _ _ _ _ _ H) as (pre & s' & -> & Hk).
    exists pre, s', g. auto.
  - destruct (IH _ _ _ _ H) as (pre & s' & g' & -> & Hk).
    exists pre, s', (Some (consumed (pre ++ s') s')). auto.
  - destruct s as [|c [|d s]].
    + exists "", "", g. auto.
    + destruct (Ascii.eqb c "010"); [|discriminate].
      exists "", (String c ""), g. auto.
    + discriminate.
Qed.

(** The text of a match is a prefix of the string at its position. *)
Lemma match_at_prefix : forall r s m,
  match_at r s = Some m -> exists rest, s = group0 m ++ rest.
Proof.
  intros r s m H. unfold match_at in H.
  apply run_suffix in H as (pre & s' & g' & -> & H).
  injection H as <-. cbn [group0]. rewrite consumed_append. exists s'. reflexivity.
Qed.

Lemma startswith_append : forall p r, Str.startswith p (p ++ r) = true.
Proof.
  induction p as [|c p IH]; intro r; cbn; [reflexivity|].
  rewrite Ascii.eqb_refl, IH. reflexivity.
Qed.

(** The text [search] returns occurs in the string searched. *)
Lemma search_contains : forall r s m,
  search r s = Some m -> Str.contains (group0 m) s = true.
Proof.
  intros r s. induction s as [|c s IH]; intros m H; cbn [search] in H.
  - destruct (match_at r "") as [m'|] eqn:E; [|discriminate].
    injection H as <-. apply match_at_prefix in E as (rest & E).
    destruct (group0 m'); [reflexivity|discriminate E].
  - destruct (match_at r (String c s)) as [m'|] eqn:E.
    + injection H as <-. apply match_at_prefix in E as (rest & E).
      cbn [Str.contains]. rewrite E. rewrite startswith_append. reflexivity.
    + cbn [Str.contains]. rewrite (IH m H). apply orb_true_r.
Qed.

Lemma first_time_source : forall tail tt ct,
  first_time tail = (tt, ct) ->
  (tt = "" /\ ct = "")
  \/ exists t, List.In t tail /\ Str.contains tt t = true
               /\ ct = Str.strip (Str.remove tt t).
Proof.
  induction tail as [|t tail IH]; intros tt ct H; cbn [first_time] in H.
  - injection H as <- <-. left. auto.
  - destruct (search time_re t) as [m|] eqn:E.
    + injection H as <- <-. right. exists t.
      split; [left; reflexivity|]. split; [|reflexivity].
      apply (search_contains _ _ _ E).
    + destruct (IH _ _ H) as [L|(t' & Hin & Hc & Hs)]; [left; exact L|].
      right. exists t'. split; [right; exact Hin|auto].
Qed.

Lemma tail_lines_incl : forall lines j t,
  List.In t (tail_lines lines j) -> List.In t lines.
Proof.
  intros lines j t H. unfold tail_lines in H.
  apply in_flat_map in H as (k & _ & H).
  destruct (nth_error lines (j + k)) as [l|] eqn:E; [|destruct H].
  destruct H as [<-|[]]. eapply nth_error_In. exact E.
Qed.

(** The parser never invents a kick-off time: the time of a record is
    empty, together with the competition, or it is a piece of one line of
    the page, and the competition is that line with the time taken out and
    the ends stripped. *)
Theorem parse_lines_time_source : forall lines limit f,
  List.In f (parse_lines lines limit) ->
  (time_text f = "" /\ competition f = "")
  \/ exists t, List.In t lines
               /\ Str.contains (time_text f) t = true
               /\ competition f = Str.strip (Str.remove (time_text f) t).
Proof.
  intros lines limit f H.
  destruct (parse_lines_fixture_at lines limit f H)
    as (i & ln & ta & tb & _ & _ & _ & _ & _ & _ & Hft & _).
  symmetry in Hft.
  destruct (first_time_source _ _ _ Hft) as [L|(t & Hin & Hc & Hs)]; [left; exact L|].
  right. exists t. split; [|auto]. eapply tail_lines_incl. exact Hin.
Qed.

Lemma parse_lines_time_source_witness :
  (time_text (leeds_fixture "") = "" /\ competition (leeds_fixture "") = "")
  \/ exists t, List.In t leeds_lines
               /\ Str.contains (time_text (leeds_fixture "")) t = true
               /\ competition (leeds_fixture "")
                  = Str.strip (Str.remove (time_text (leeds_fixture "")) t).
Proof.
  apply (parse_lines_time_source leeds_lines 20). left. reflexivity.
Defined.

(* ================================================================== *)
(** * The further properties of the outcome model in exact arithmetic *)

Open Scope R_scope.

Lemma p_draw_floor_and_baseline_witness :
  p_draw (probability_from_elos exact exact_pow10 1700 1500 true) = flit exact (1 / 10).
Proof.
  apply (proj2 (p_draw_floor_and_baseline exact exact_pow10
                  exact_rounds_to_nearest exact_pow10_nonneg 1700 1500 true)).
  cbn. lia.
Defined.

Lemma elo_expected_zero_sum_witness :
  Rabs (elo_expected exact exact_pow10 1700 1500
        + elo_expected exact exact_pow10 1500 1700 - 1) <= 4 / 10 ^ 9.
Proof.
  apply (proj2 (elo_expected_zero_sum exact exact_pow10
                  exact_rounds_to_nearest exact_computes_pow10 1700 1500)).
  cbn. lia.
Defined.

Lemma p_win_home_advantage_witness :
  p_win (probability_from_elos exact exact_pow10 1700 1500 false)
  <= p_win (probability_from_elos exact exact_pow10 1700 1500 true).
Proof.
  exact (p_win_home_advantage exact exact_pow10
           exact_rounds_to_nearest exact_computes_pow10 1700 1500).
Defined.

Lemma p_win_antitone_in_opponent_witness :
  p_win (probability_from_elos exact exact_pow10 1700 1501 true)
  <= p_win (probability_from_elos exact exact_pow10 1700 1500 true).
Proof.
  apply (p_win_antitone_in_opponent exact exact_pow10
           exact_rounds_to_nearest exact_computes_pow10 1700 1500 1501 true).
  lia.
Defined.

Lemma probability_from_elos_swap_witness :
  Rabs (p_win (probability_from_elos exact exact_pow10 1500 1700 (negb true))
        - p_loss (probability_from_elos exact exact_pow10 1700 1500 true))
  <= 6 / 10 ^ 9.
Proof.
  apply (proj2 (probability_from_elos_swap exact exact_pow10
                  exact_rounds_to_nearest exact_computes_pow10 1700 1500 true)).
  cbn. lia.
Defined.

Lemma p_loss_antitone_witness :
  p_loss (probability_from_elos exact exact_pow10 1701 1500 true)
  <= p_loss (probability_from_elos exact exact_pow10 1700 1500 true).
Proof.
  apply (p_loss_antitone exact exact_pow10
           exact_rounds_to_nearest exact_computes_pow10 1700 1701 1500 true).
  lia.
Defined.

Close Scope R_scope.
